(** * generative-city-map: a shallow embedding of [src/js/generator.js]

    Numbers.  JavaScript numbers are modelled as exact rationals [Q]
    (decimal literals such as [0.3] are read as the exact rationals they
    denote; IEEE rounding is not modelled).  The 32-bit operations of
    [mulberry32] are written out on [Z] with ECMAScript's [ToInt32] /
    [ToUint32] conversions.  The PRNG's [seed] variable is a JavaScript
    double that is only ever incremented; it is modelled as an unbounded
    [Z], which is exact while it stays below 2^53.

    Environment.  [Math.sin], [Math.cos], [Math.PI], the global [canvas]
    (its [width] and [height]) and [view.canvas.isVisible] are not part of
    this file; they are Section variables.

    Identity.  A JavaScript line object is identified by its position
    [(si, li)]: seed index, index in that seed's [lines] array.  Lines are
    never removed or moved, and a child is always pushed to its parent's
    seed, so [parent] is stored as the index of the parent inside the same
    seed's [lines]. *)

From Stdlib Require Import ZArith QArith Qminmax Qround List Bool Lia.
Import ListNotations.

Open Scope Z_scope.

(** [a < b] on numbers. *)
Definition Qlt_bool (a b : Q) : bool := negb (Qle_bool b a).

(** ** ECMAScript 32-bit integer operations *)

Definition two32 : Z := 4294967296.

Definition ToUint32 (x : Z) : Z := x mod two32.

Definition ToInt32 (x : Z) : Z :=
  let m := x mod two32 in if 2147483648 <=? m then m - two32 else m.

(** [a ^ b] *)
Definition js_xor (a b : Z) : Z := ToInt32 (Z.lxor (ToInt32 a) (ToInt32 b)).
(** [a | b] *)
Definition js_or (a b : Z) : Z := ToInt32 (Z.lor (ToInt32 a) (ToInt32 b)).
(** [a >>> n] *)
Definition js_ushr (a n : Z) : Z := Z.shiftr (ToUint32 a) (n mod 32).
(** [Math.imul(a, b)] *)
Definition imul (a b : Z) : Z := ToInt32 (ToUint32 a * ToUint32 b).

(** ** [randomFromSeed] *)

Definition mulberry_inc : Z := 1831565813. (* 0x6D2B79F5 *)

(** One call of the inner [mulberry32()]: the output in [0,1) and the new
    value of the captured [seed] variable. *)
Definition mulberry32 (seed : Z) : Q * Z :=
  let seed' := seed + mulberry_inc in
  let t := seed' in
  let t := imul (js_xor t (js_ushr t 15)) (js_or t 1) in
  let t := js_xor t (t + imul (js_xor t (js_ushr t 7)) (js_or t 61)) in
  (Qmake (js_ushr (js_xor t (js_ushr t 14)) 0) 4294967296, seed').

Arguments mulberry32 : simpl never.

(** ** Data model *)

Record point := mkPoint { x : Q; y : Q }.

Record line := mkLine {
  p0 : point;
  p1 : point;
  angle : Q;
  generation : nat;
  parent : option nat;     (* index of the parent in the same seed's lines *)
  active : bool;
  split : bool;
  expired : bool;
  steps : nat;
  line_rnd : Q             (* the field [rnd] of the JS object *)
}.

Record seed := mkSeed { seed_angle : Q; lines : list line }.

Record config := mkConfig {
  seedCount : Q;
  pBifurcation : Q;
  maxRectWidth : Q;
  rectBaseHue : Q;
  rectSaturation : Q;
  rectHueVariation : Q;
  rectAlpha : Q;
  rectLightness : Q;
  expiryThreshold : Q;
  lineDarkness : Q;
  pencilHorizontal : bool;
  useGradients : bool
}.

(** The mutable state of one render: the PRNG's captured [seed] variable,
    the variables [seeds] and [activeLineCount] of [buildModel] ([seeds] is
    [undefined] until [generate()]), and [draws], the record of every
    [mulberry32()] output in order (an observation, read by no code). *)
Record state := mkState {
  prng : Z;
  draws : list Q;
  seeds : option (list seed);
  activeLineCount : Z
}.

Definition set_prng (st : state) (s : Z) (u : Q) : state :=
  mkState s (draws st ++ [u]) (seeds st) (activeLineCount st).
Definition set_seeds (st : state) (ss : option (list seed)) : state :=
  mkState (prng st) (draws st) ss (activeLineCount st).
Definition set_count (st : state) (n : Z) : state :=
  mkState (prng st) (draws st) (seeds st) n.

Definition with_p1 (l : line) (p : point) : line :=
  mkLine (p0 l) p (angle l) (generation l) (parent l) (active l) (split l)
    (expired l) (steps l) (line_rnd l).
Definition with_active (l : line) (b : bool) : line :=
  mkLine (p0 l) (p1 l) (angle l) (generation l) (parent l) b (split l)
    (expired l) (steps l) (line_rnd l).
Definition with_split (l : line) (b : bool) : line :=
  mkLine (p0 l) (p1 l) (angle l) (generation l) (parent l) (active l) b
    (expired l) (steps l) (line_rnd l).
Definition with_expired (l : line) (b : bool) : line :=
  mkLine (p0 l) (p1 l) (angle l) (generation l) (parent l) (active l)
    (split l) b (steps l) (line_rnd l).
Definition with_steps (l : line) (n : nat) : line :=
  mkLine (p0 l) (p1 l) (angle l) (generation l) (parent l) (active l)
    (split l) (expired l) n (line_rnd l).

(** ** A state and error monad *)

Inductive error := TypeError | RangeError | Stuck.
(* [Stuck]: an index that does not denote a JS object; unreachable in the
   program, where lines and seeds are held by reference. *)

Inductive result (A : Type) :=
| Ok (a : A) (st : state)
| Err (e : error).
Arguments Ok {A} a st.
Arguments Err {A} e.

Definition M (A : Type) := state -> result A.

Definition ret {A} (a : A) : M A := fun st => Ok a st.
Definition bind {A B} (m : M A) (k : A -> M B) : M B :=
  fun st => match m st with Ok a st' => k a st' | Err e => Err e end.
Definition throw {A} (e : error) : M A := fun _ => Err e.
Definition get : M state := fun st => Ok st st.

Notation "x <- m ;; k" := (bind m (fun x => k))
  (at level 61, m at next level, right associativity).
Notation "m ;;; k" := (bind m (fun _ => k))
  (at level 61, right associativity).

Fixpoint forM_ {A} (xs : list A) (f : A -> M unit) : M unit :=
  match xs with
  | [] => ret tt
  | a :: xs' => f a ;;; forM_ xs' f
  end.

Fixpoint repeatM {A} (n : nat) (m : M A) : M (list A) :=
  match n with
  | O => ret []
  | S n' => a <- m ;; r <- repeatM n' m ;; ret (a :: r)
  end.

(** The function returned by [randomFromSeed]: [function(a=1, b=0)];
    [b && a] and [b || a] on numbers ([0] is the only falsy rational). *)
Definition rnd (a b : Q) : M Q := fun st =>
  let min := if Qeq_bool b 0 then b else a in
  let max := if Qeq_bool b 0 then a else b in
  let r := mulberry32 (prng st) in
  Ok (fst r * (max - min) + min)%Q (set_prng st (snd r) (fst r)).

(** [rnd()] and [rnd(a)]: the omitted parameters take their defaults. *)
Definition rnd0 : M Q := rnd 1 0.
Definition rnd1 (a : Q) : M Q := rnd a 0.

(** ** Accessors of the forest *)

Fixpoint list_set {A} (l : list A) (i : nat) (v : A) : list A :=
  match l, i with
  | [], _ => []
  | _ :: l', O => v :: l'
  | a :: l', S i' => a :: list_set l' i' v
  end.

Definition lookup_seed (ss : option (list seed)) (si : nat) : option seed :=
  match ss with Some l => nth_error l si | None => None end.

Definition lookup_line (ss : option (list seed)) (si li : nat) : option line :=
  match lookup_seed ss si with
  | Some sd => nth_error (lines sd) li
  | None => None
  end.

Definition get_seed (si : nat) : M seed := fun st =>
  match lookup_seed (seeds st) si with
  | Some sd => Ok sd st
  | None => Err Stuck
  end.

Definition get_line (si li : nat) : M line := fun st =>
  match lookup_line (seeds st) si li with
  | Some l => Ok l st
  | None => Err Stuck
  end.

Definition put_seed (si : nat) (sd : seed) : M unit := fun st =>
  match seeds st with
  | Some ss => Ok tt (set_seeds st (Some (list_set ss si sd)))
  | None => Err Stuck
  end.

(** [line.f = v] for the line object at [(si, li)]. *)
Definition set_line (si li : nat) (l : line) : M unit :=
  sd <- get_seed si ;;
  put_seed si (mkSeed (seed_angle sd) (list_set (lines sd) li l)).

(** [seed.lines.push(l)] *)
Definition push_line (si : nat) (l : line) : M unit :=
  sd <- get_seed si ;;
  put_seed si (mkSeed (seed_angle sd) (lines sd ++ [l])).

Definition incr_count : M unit := fun st =>
  Ok tt (set_count st (activeLineCount st + 1)).
Definition decr_count : M unit := fun st =>
  Ok tt (set_count st (activeLineCount st - 1)).

(** ** [buildCollisionDetector] *)

Definition CLOCKWISE : nat := 1.
Definition ANTICLOCKWISE : nat := 2.
Definition COLINEAR : nat := 0.

Definition orientation (p q r : point) : nat :=
  let val := ((y q - y p) * (x r - x q) - (x q - x p) * (y r - y q))%Q in
  if Qlt_bool 0 val then CLOCKWISE
  else if Qlt_bool val 0 then ANTICLOCKWISE
  else COLINEAR.

Definition onSegment (p q r : point) : bool :=
  Qle_bool (x q) (Qmax (x p) (x r)) && Qle_bool (Qmin (x p) (x r)) (x q) &&
  Qle_bool (y q) (Qmax (y p) (y r)) && Qle_bool (Qmin (y p) (y r)) (y q).

Definition linesIntersect (l1 l2 : line) : bool :=
  let o1 := orientation (p0 l1) (p1 l1) (p0 l2) in
  let o2 := orientation (p0 l1) (p1 l1) (p1 l2) in
  let o3 := orientation (p0 l2) (p1 l2) (p0 l1) in
  let o4 := orientation (p0 l2) (p1 l2) (p1 l1) in
  if negb (Nat.eqb o1 o2) && negb (Nat.eqb o3 o4) then true
  else if Nat.eqb o1 COLINEAR && onSegment (p0 l1) (p0 l2) (p1 l1) then true
  else if Nat.eqb o2 COLINEAR && onSegment (p0 l1) (p1 l2) (p1 l1) then true
  else if Nat.eqb o3 COLINEAR && onSegment (p0 l2) (p0 l1) (p1 l2) then true
  else if Nat.eqb o4 COLINEAR && onSegment (p0 l2) (p1 l1) (p1 l2) then true
  else false.

(** ** Traversal of the forest *)

(** The value a JS function returns. *)
Inductive jsval := JsUndefined | JsBool (b : bool).

(** [Array.prototype.some] with a callback that updates the state of its
    closure: stops at the first truthy result. *)
Fixpoint some_st {S A} (f : S -> A -> S * bool) (s : S) (xs : list A)
  : S * bool :=
  match xs with
  | [] => (s, false)
  | a :: xs' =>
      let r := f s a in
      if snd r then (fst r, true) else some_st f (fst r) xs'
  end.

Definition indexed {A} (l : list A) : list (nat * A) :=
  combine (seq 0 (length l)) l.

(** A reference to a line object: seed index, line index, the object. *)
Definition lref := (nat * nat * line)%type.

(** [model.forEachLineUntilTrue(fn)]; [(seeds || [])]; the result of the
    outer [some] is discarded, the method returns [undefined]. *)
Definition forEachLineUntilTrue {S} (cfg : config) (ss : option (list seed))
    (fn : S -> lref -> config -> S * bool) (s : S) : S * jsval :=
  let r := some_st (fun s (p : nat * seed) =>
             some_st (fun s (q : nat * line) => fn s (fst p, fst q, snd q) cfg)
               s (indexed (lines (snd p))))
           s (indexed (match ss with Some l => l | None => [] end)) in
  (fst r, JsUndefined).

(** [c.parent === p] for the line [c] of seed [c_si] and the line object
    at [(p_si, p_li)]. *)
Definition parent_is (c_si : nat) (c : line) (p_si p_li : nat) : bool :=
  Nat.eqb c_si p_si &&
  match parent c with Some p => Nat.eqb p p_li | None => false end.

Section Env.

Variables (sin cos : Q -> Q) (PI canvas_width canvas_height : Q).
Variable isVisible : Q -> Q -> bool.

Definition lineOffscreen (l : line) : bool := negb (isVisible (x (p1 l)) (y (p1 l))).

(** [checkForCollisions(line1, forEachLineUntilTrue)]; the visitor's state
    is the closure variable [foundCollision]. *)
Definition checkForCollisions (line1 : lref)
    (forEachLineUntilTrue : (bool -> lref -> config -> bool * bool) -> bool ->
                            bool * jsval) : bool :=
  let '(si1, li1, l1) := line1 in
  if lineOffscreen l1 then true
  else
    let foundCollision := false in
    fst (forEachLineUntilTrue
      (fun foundCollision (line2 : lref) (_ : config) =>
         let '(si2, li2, l2) := line2 in
         if (Nat.eqb si1 si2 && Nat.eqb li1 li2) || parent_is si1 l1 si2 li2 ||
            parent_is si2 l2 si1 li1
         then (foundCollision, false)
         else let f := linesIntersect l1 l2 in (f, f))
      foundCollision).

(** ** [buildModel] *)

Definition growthRate : Q := 1.

(** [line.grow()]; [angle] is the closure variable of [buildLine], always
    equal to [line.angle]. *)
Definition line_grow (cfg : config) (l : line) : M line :=
  let a := angle l in
  let l := with_p1 l (mkPoint (x (p1 l) + sin a * growthRate)
                              (y (p1 l) + cos a * growthRate))%Q in
  let l := with_steps l (S (steps l)) in
  r <- rnd0 ;;
  let l := with_split l (Qlt_bool r (pBifurcation cfg)) in
  r' <- rnd0 ;;
  ret (if Qlt_bool r' (inject_Z (Z.of_nat (generation l)) * expiryThreshold cfg)
       then with_expired l true else l).

(** [line.clip()] *)
Definition clip (l : line) : line :=
  let a := angle l in
  with_p1 l (mkPoint (x (p1 l) - sin a * growthRate)
                     (y (p1 l) - cos a * growthRate))%Q.

(** [buildLine(p0, angle, parent)]; the parent is passed with its index. *)
Definition buildLine (cfg : config) (p : point) (a : Q)
    (par : option (nat * line)) : M line :=
  r <- rnd0 ;;
  let l := mkLine p p a
             (match par with Some pl => S (generation (snd pl)) | None => O end)
             (option_map fst par) true false false O r in
  incr_count ;;;
  line_grow cfg l.

(** [buildSeed()] *)
Definition buildSeed (cfg : config) : M seed :=
  a <- rnd 0 (PI * 2) ;;
  px <- rnd 0 canvas_width ;;
  py <- rnd 0 canvas_height ;;
  l <- buildLine cfg (mkPoint px py) a None ;;
  ret (mkSeed a [l]).

(** [Array(n)]: a RangeError unless [n] is an integer in [0, 2^32). *)
Definition Array_length (n : Q) : option nat :=
  let r := Qred n in
  if (Pos.eqb (Qden r) 1 && (0 <=? Qnum r) && (Qnum r <? two32))%Z
  then Some (Z.to_nat (Qnum r)) else None.

Definition put_seeds (ss : list seed) : M unit := fun st =>
  Ok tt (set_seeds st (Some ss)).

(** [model.generate()] *)
Definition generate (cfg : config) : M unit :=
  match Array_length (seedCount cfg) with
  | None => throw RangeError
  | Some n => ss <- repeatM n (buildSeed cfg) ;; put_seeds ss
  end.

(** The body of the [forEach] in [seed.grow()], for the line at [(si, li)]. *)
Definition process_line (cfg : config) (si li : nat) : M unit :=
  line <- get_line si li ;;
  line <- line_grow cfg line ;;
  set_line si li line ;;;
  if expired line then
    set_line si li (with_active line false) ;;; decr_count
  else
    st <- get ;;
    if checkForCollisions (si, li, line)
         (fun fn s => forEachLineUntilTrue cfg (seeds st) fn s) then
      set_line si li (with_active (clip line) false) ;;; decr_count
    else if split line then
      let line := with_split line false in
      set_line si li line ;;;
      r <- rnd0 ;;
      let newAngle := (angle line + PI / 2 * (if Qlt_bool r (1/2) then 1 else -1))%Q in
      child <- buildLine cfg (mkPoint (x (p1 line)) (y (p1 line))) newAngle
                 (Some (li, line)) ;;
      push_line si child
    else ret tt.

(** [this.lines.filter(l => l.active)], as indices. *)
Definition active_indices (ls : list line) : list nat :=
  map fst (filter (fun p => active (snd p)) (indexed ls)).

(** [seed.grow()] for the seed at index [si]. *)
Definition seed_grow (cfg : config) (si : nat) : M unit :=
  sd <- get_seed si ;;
  forM_ (active_indices (lines sd)) (process_line cfg si).

(** [model.grow()]: [seeds.forEach(s => s.grow())]. *)
Definition model_grow (cfg : config) : M unit :=
  st <- get ;;
  match seeds st with
  | None => throw TypeError
  | Some ss => forM_ (seq 0 (length ss)) (seed_grow cfg)
  end.

(** [model.isActive()] *)
Definition isActive (st : state) : bool := 0 <? activeLineCount st.

(** [n] successive calls of [model.grow()]. *)
Fixpoint ticks (cfg : config) (n : nat) : M unit :=
  match n with
  | O => ret tt
  | S n' => model_grow cfg ;;; ticks cfg n'
  end.

End Env.

(** ** [buildRandomConfig] and [render.init] *)

(** [Math.round] *)
Definition Math_round (q : Q) : Z := Qfloor (q + (1#2)).

Definition buildRandomConfig : M config :=
  r <- rnd0 ;;
  let useGradients := Qlt_bool (3#10) r in
  sc <- rnd 1 10 ;;
  pb <- rnd (2#100) (5#100) ;;
  mrw <- rnd 0 100 ;;
  hue <- rnd1 360 ;;
  sat <- rnd 20 100 ;;
  hv <- rnd1 100 ;;
  alpha <- (if useGradients then rnd (4#10) (8#10) else rnd (1#10) (4#10)) ;;
  light <- rnd 20 70 ;;
  et <- rnd1 (1#1000) ;;
  dark <- rnd0 ;;
  ph <- rnd0 ;;
  ret (mkConfig (inject_Z (Math_round sc)) pb mrw hue sat hv alpha light et dark
         (Qlt_bool (1#2) ph) useGradients).

(** The state right after [rnd = randomFromSeed(seed)]: no draws yet, and
    the model's [seeds] undefined, [activeLineCount = 0]. *)
Definition initial_state (seed0 : Z) : state := mkState seed0 [] None 0.

Section Render.

Variables (sin cos : Q -> Q) (PI canvas_width canvas_height : Q).
Variable isVisible : Q -> Q -> bool.

(** [render.init()]: config, collision detector and model, then
    [model.generate()]. *)
Definition render_init : M config :=
  cfg <- buildRandomConfig ;;
  generate sin cos PI canvas_width canvas_height cfg ;;;
  ret cfg.

(** [render.init()] followed by [n] calls of [model.grow()]. *)
Definition run (seed0 : Z) (n : nat) : result config :=
  (cfg <- render_init ;;
   ticks sin cos PI isVisible cfg n ;;;
   ret cfg) (initial_state seed0).

End Render.

(** ** A sample environment, for concrete runs

    An 800x600 canvas, [Math.PI] (the exact value of the double), and
    Bhaskara's rational approximation of the sine. *)
Module SampleEnv.

Definition PI : Q := 884279719003555 # 281474976710656.
Definition canvas_width : Q := 800.
Definition canvas_height : Q := 600.
Definition isVisible (px py : Q) : bool :=
  Qle_bool 0 px && Qle_bool px canvas_width &&
  Qle_bool 0 py && Qle_bool py canvas_height.

Definition bhaskara (t : Q) : Q :=
  Qred (16 * t * (PI - t) / (5 * PI * PI - 4 * t * (PI - t))).

Definition sin (a : Q) : Q :=
  let t := Qred (a - 2 * PI * inject_Z (Qfloor (a / (2 * PI)))) in
  if Qle_bool t PI then bhaskara t else - bhaskara (t - PI).

Definition cos (a : Q) : Q := sin (a + PI / 2).

Definition run (seed0 : Z) (n : nat) : result config :=
  run sin cos PI canvas_width canvas_height isVisible seed0 n.

End SampleEnv.

(** ** Definitions used in the statements *)

(** A segment from [(a,b)] to [(c,d)], as a line object. *)
Definition segment (a b c d : Q) : line :=
  mkLine (mkPoint a b) (mkPoint c d) 0 O None true false false O 0.

(** All lines of the forest in seed order, then line order in a seed. *)
Definition forest_refs (ss : option (list seed)) : list lref :=
  flat_map (fun p : nat * seed =>
              map (fun q : nat * line => (fst p, fst q, snd q)) (indexed (lines (snd p))))
    (indexed (match ss with Some l => l | None => [] end)).

(** The lines that [checkForCollisions] skips for [line1]: itself, its
    parent, and the lines whose parent it is. *)
Definition excluded (line1 line2 : lref) : bool :=
  let '(si1, li1, l1) := line1 in
  let '(si2, li2, l2) := line2 in
  (Nat.eqb si1 si2 && Nat.eqb li1 li2) || parent_is si1 l1 si2 li2 ||
  parent_is si2 l2 si1 li1.

(** A configuration inside the ranges [buildRandomConfig] draws from. *)
Definition example_config : config :=
  mkConfig 1 (1#20) 50 180 60 50 (1#2) 50 (1#2000) (1#2) false true.

(** The state [st] with the line at [(si, li)] replaced by [l]; [ss] and
    [sd] are the seeds of [st] and the seed at [si]. *)
Definition put_line (st : state) (ss : list seed) (si : nat) (sd : seed) (li : nat)
    (l : line) : state :=
  set_seeds st (Some (list_set ss si (mkSeed (seed_angle sd) (list_set (lines sd) li l)))).

(** Number of active lines of a list of lines. *)
Definition count_active (ls : list line) : nat := length (filter active ls).

(** A one-line forest, for the witnesses. *)
Definition sample_state : state :=
  mkState 1 [] (Some [mkSeed 0 [segment 400 300 400 301]]) 1.

(** What one tick does to the lines of a seed: [ls] before, [ls'] after.
    Each line active at the start gains exactly one step and keeps its
    parent; each inactive one is untouched; each line appended during the
    tick has been grown once (by [buildLine]) and is active, and its parent
    is a line that was active at the start. *)
Definition tick_rel (ls ls' : list line) : Prop :=
  (length ls <= length ls')%nat /\
  (forall j l, nth_error ls j = Some l -> exists l', nth_error ls' j = Some l' /\
     (active l = true -> steps l' = S (steps l) /\ parent l' = parent l) /\
     (active l = false -> l' = l)) /\
  (forall j c, (length ls <= j)%nat -> nth_error ls' j = Some c ->
     steps c = 1%nat /\ active c = true /\
     exists p l, parent c = Some p /\ nth_error ls p = Some l /\ active l = true).

(** Number of active lines of a forest. *)
Definition count_forest (ss : list seed) : nat :=
  list_sum (map (fun sd => count_active (lines sd)) ss).

(** Number of active lines of the model's forest ([seeds] undefined: none). *)
Definition forest_active (st : state) : nat :=
  match seeds st with None => O | Some ss => count_forest ss end.

Section Reach.

Variables (sin cos : Q -> Q) (PI canvas_width canvas_height : Q).
Variable isVisible : Q -> Q -> bool.

(** The states of a model built by [buildModel(config, ...)]: fresh
    ([seeds] undefined, the counter 0), then [generate()] on a model not
    generated yet, then any number of [grow()] calls. *)
Inductive reachable (cfg : config) : state -> Prop :=
| reach_fresh st :
    seeds st = None -> activeLineCount st = 0 -> reachable cfg st
| reach_generate st st' :
    reachable cfg st -> seeds st = None ->
    generate sin cos PI canvas_width canvas_height cfg st = Ok tt st' ->
    reachable cfg st'
| reach_grow st st' :
    reachable cfg st -> model_grow sin cos PI isVisible cfg st = Ok tt st' ->
    reachable cfg st'.

End Reach.

(** The first [k] outputs of [mulberry32] from the state [s]. *)
Definition stream (s : Z) (k : nat) : list Q :=
  map (fun i => fst (mulberry32 (s + Z.of_nat i * mulberry_inc))) (seq 0 k).

(** A computation that, when it succeeds, has drawn the next [n] outputs of
    the generator and nothing else. *)
Definition draws_from {A} (m : M A) : Prop :=
  forall st a st', m st = Ok a st' ->
  exists n, prng st' = prng st + Z.of_nat n * mulberry_inc /\
            draws st' = draws st ++ stream (prng st) n.

(** [example_config] with [pBifurcation = 1]: every grown line splits. *)
Definition split_config : config :=
  mkConfig 1 1 50 180 60 50 (1#2) 50 (1#2000) (1#2) false true.

(** ** Lines active over several ticks *)

Section Ticks.

Variables (sin cos : Q -> Q) (PI : Q) (isVisible : Q -> Q -> bool).

(** The line at [(si, li)] exists and is active at the start of each of the
    next [n] calls of [model.grow()] from [st]. *)
Fixpoint active_during (cfg : config) (n : nat) (st : state) (si li : nat) : Prop :=
  match n with
  | O => True
  | S n' =>
      (exists l, lookup_line (seeds st) si li = Some l /\ active l = true) /\
      forall st1, model_grow sin cos PI isVisible cfg st = Ok tt st1 ->
        active_during cfg n' st1 si li
  end.

End Ticks.

(** ** The shape of the forest *)

Section Shape.

Variables (sin cos : Q -> Q) (PI : Q).

(** The tip of [l] lies [g] growth steps along the line's direction from
    its start [p0]. *)
Definition tip_at (l : line) (g : nat) : Prop :=
  (x (p1 l) == x (p0 l) + inject_Z (Z.of_nat g) * (sin (angle l) * growthRate))%Q /\
  (y (p1 l) == y (p0 l) + inject_Z (Z.of_nat g) * (cos (angle l) * growthRate))%Q.

(** A line object as the model keeps it: at least one step; its tip
    [steps] steps from its start, or, for an inactive line (retracted by
    [clip()]), [steps - 1]; and a root (generation 0) never expired. *)
Definition line_ok (l : line) : Prop :=
  (1 <= steps l)%nat /\
  (tip_at l (steps l) \/ (active l = false /\ tip_at l (steps l - 1))) /\
  (generation l = O -> expired l = false).

(** The start of [l] is a point of [lp]'s segment: [k] steps from [lp]'s
    start, with [lp]'s tip [g >= k] steps from it. *)
Definition on_parent (lp l : line) : Prop :=
  exists k g : nat, (k <= g)%nat /\ tip_at lp g /\
    (x (p0 l) == x (p0 lp) + inject_Z (Z.of_nat k) * (sin (angle lp) * growthRate))%Q /\
    (y (p0 l) == y (p0 lp) + inject_Z (Z.of_nat k) * (cos (angle lp) * growthRate))%Q.

(** The lines of a seed: each one is [line_ok]; the line at index 0 is the
    only one without a parent and has generation 0; any other line's
    parent is an earlier line of the seed, one generation up, on whose
    segment the line starts, at a right angle to it. *)
Definition seed_ok (ls : list line) : Prop :=
  forall j l, nth_error ls j = Some l ->
    line_ok l /\
    match parent l with
    | None => j = O /\ generation l = O
    | Some p => (p < j)%nat /\ exists lp, nth_error ls p = Some lp /\
                  generation l = S (generation lp) /\ on_parent lp l /\
                  (angle l == angle lp + PI / 2 \/ angle l == angle lp - PI / 2)%Q
    end.

(** Every seed of the model's forest is [seed_ok] ([seeds] undefined: no
    seed). *)
Definition forest_ok (st : state) : Prop :=
  match seeds st with
  | None => True
  | Some ss => forall si sd, nth_error ss si = Some sd -> seed_ok (lines sd)
  end.

End Shape.

(** ** [update()], the animation loop and [startNew] *)

(** JS [%] on numbers: the remainder of the truncating division, with the
    sign of the dividend. *)
Definition js_rem (a b : Q) : Q :=
  let q := (a / b)%Q in
  (a - b * inject_Z (if Qle_bool 0 q then Qfloor q else Qceiling q))%Q.

(** [Math.min(a, b)] *)
Definition Math_min (a b : Q) : Q := if Qlt_bool b a then b else a.

(** A call that [update()] makes on [view.canvas], with the values it
    computes for the arguments: [drawRect(line, width, hsla(h,s%,l%,a),
    useGradients)] and [drawLine(line, rgb(v,v,v))]. *)
Inductive canvas_call :=
| Clear
| DrawRect (l : line) (width : Q) (h s lt a : Q) (grad : bool)
| DrawLine (l : line) (v : Z).

(** The hue of [drawRect] in [update()]. *)
Definition rect_hue (cfg : config) (l : line) : Q :=
  js_rem (rectBaseHue cfg + (line_rnd l - (1#2)) * rectHueVariation cfg) 360.

(** The body of the first visitor of [update()]. *)
Definition rect_call (r : lref) (cfg : config) : canvas_call :=
  let l := snd r in
  DrawRect l (Math_min (maxRectWidth cfg) (inject_Z (Z.of_nat (steps l))))
    (rect_hue cfg l) (rectSaturation cfg) (rectLightness cfg) (rectAlpha cfg)
    (useGradients cfg).

(** The body of the second visitor of [update()]. *)
Definition line_call (r : lref) (cfg : config) : canvas_call :=
  DrawLine (snd r) (Math_round (lineDarkness cfg * 100)).

(** The variables of [createNewRender] that [start] and [stop] use, and the
    host: [stopRequested], the number of [doUpdate] callbacks that
    [requestAnimationFrame] holds, and the number of [onFinished()] calls. *)
Record loop := mkLoop { stopRequested : bool; frames : nat; finished : nat }.

(** [stop()] *)
Definition stop (lp : loop) : loop := mkLoop true (frames lp) (finished lp).

Section View.

Variables (sin cos : Q -> Q) (PI : Q).
Variable isVisible : Q -> Q -> bool.

(** [update()]: its result, and the canvas calls it makes, in order.  The
    visitors return [undefined], so both traversals visit every line. *)
Definition update (cfg : config) : M (bool * list canvas_call) :=
  model_grow sin cos PI isVisible cfg ;;;
  st <- get ;;
  if isActive st then
    let rects := fst (forEachLineUntilTrue cfg (seeds st)
                   (fun acc r c => (acc ++ [rect_call r c], false)) []) in
    let strokes := fst (forEachLineUntilTrue cfg (seeds st)
                   (fun acc r c => (acc ++ [line_call r c], false)) []) in
    ret (false, Clear :: rects ++ strokes)
  else ret (true, []).

(** [doUpdate()] of [start()]: one [update()], the loop's next state and the
    canvas calls. *)
Definition doUpdate (cfg : config) (lp : loop) : M (loop * list canvas_call) :=
  r <- update cfg ;;
  let '(isComplete, calls) := r in
  if stopRequested lp then ret (mkLoop false (frames lp) (finished lp), calls)
  else if isComplete then ret (mkLoop false (frames lp) (S (finished lp)), calls)
  else ret (mkLoop false (S (frames lp)) (finished lp), calls).

(** [start()] *)
Definition start (cfg : config) (lp : loop) : M (loop * list canvas_call) :=
  doUpdate cfg lp.

(** The host runs one callback held by [requestAnimationFrame]. *)
Definition frame (cfg : config) (lp : loop) : M (loop * list canvas_call) :=
  match frames lp with
  | O => ret (lp, [])
  | S n => doUpdate cfg (mkLoop (stopRequested lp) n (finished lp))
  end.

(** What happens to a started render: the host runs a pending callback, or
    the page calls [pause()] ([stop()]) or [resume()] ([start()]). *)
Inductive host_event := HFrame | HPause | HResume.

(** A sequence of such events, with the canvas calls they cause. *)
Fixpoint host_run (cfg : config) (evs : list host_event) (lp : loop)
  : M (loop * list canvas_call) :=
  match evs with
  | [] => ret (lp, [])
  | HPause :: evs' => host_run cfg evs' (stop lp)
  | ev :: evs' =>
      r1 <- (match ev with HResume => start cfg lp | _ => frame cfg lp end) ;;
      let '(lp1, c1) := r1 in
      r2 <- host_run cfg evs' lp1 ;;
      let '(lp2, c2) := r2 in
      ret (lp2, c1 ++ c2)
  end.

End View.

(** [resume()] is only called right after [pause()]. *)
Fixpoint resume_after_pause (evs : list host_event) : bool :=
  match evs with
  | [] => true
  | HPause :: HResume :: evs' => resume_after_pause evs'
  | HResume :: _ => false
  | _ :: evs' => resume_after_pause evs'
  end.

(** [a & b] *)
Definition js_and (a b : Z) : Z := ToInt32 (Z.land (ToInt32 a) (ToInt32 b)).

(** The default argument of [startNew]: [Date.now() & 0xfffff]. *)
Definition default_seed (now : Z) : Z := js_and now 1048575.

(** * Proofs *)

From Stdlib Require Import Lqa.

(** ** The segment predicate *)

(** C4: [linesIntersect] is true exactly when the orientations straddle or
    a collinear endpoint lies in the other segment's bounding box; and the
    three literal cases of the spec. *)
Theorem linesIntersect_spec :
  (forall l1 l2 : line,
    let o1 := orientation (p0 l1) (p1 l1) (p0 l2) in
    let o2 := orientation (p0 l1) (p1 l1) (p1 l2) in
    let o3 := orientation (p0 l2) (p1 l2) (p0 l1) in
    let o4 := orientation (p0 l2) (p1 l2) (p1 l1) in
    linesIntersect l1 l2 = true <->
      (o1 <> o2 /\ o3 <> o4) \/
      (o1 = COLINEAR /\ onSegment (p0 l1) (p0 l2) (p1 l1) = true) \/
      (o2 = COLINEAR /\ onSegment (p0 l1) (p1 l2) (p1 l1) = true) \/
      (o3 = COLINEAR /\ onSegment (p0 l2) (p0 l1) (p1 l2) = true) \/
      (o4 = COLINEAR /\ onSegment (p0 l2) (p1 l1) (p1 l2) = true)) /\
  linesIntersect (segment 0 0 10 10) (segment 0 10 10 0) = true /\
  linesIntersect (segment 0 0 10 0) (segment 0 5 10 5) = false /\
  linesIntersect (segment 0 0 10 0) (segment 5 0 15 0) = true.
Proof.
  split; [| repeat split; vm_compute; reflexivity].
  intros l1 l2 o1 o2 o3 o4. unfold linesIntersect; fold o1 o2 o3 o4.
  destruct (Nat.eqb_spec o1 o2), (Nat.eqb_spec o3 o4);
  destruct (Nat.eqb_spec o1 COLINEAR), (Nat.eqb_spec o2 COLINEAR),
           (Nat.eqb_spec o3 COLINEAR), (Nat.eqb_spec o4 COLINEAR);
  destruct (onSegment (p0 l1) (p0 l2) (p1 l1)), (onSegment (p0 l1) (p1 l2) (p1 l1)),
           (onSegment (p0 l2) (p0 l1) (p1 l2)), (onSegment (p0 l2) (p1 l1) (p1 l2));
  simpl; intuition congruence.
Qed.

(** ** The seeded random draw *)

Lemma mulberry32_range (s : Z) :
  (0 <= fst (mulberry32 s) /\ fst (mulberry32 s) < 1)%Q.
Proof.
  unfold mulberry32; simpl fst.
  set (v := js_ushr _ 0).
  assert (Hv : 0 <= v < two32).
  { unfold v, js_ushr; change (0 mod 32) with 0; rewrite Z.shiftr_0_r.
    unfold ToUint32; apply Z.mod_pos_bound; reflexivity. }
  unfold Qle, Qlt; simpl; unfold two32 in Hv; lia.
Qed.

Lemma rnd_eq (a b : Q) (st : state) :
  rnd a b st =
  Ok (fst (mulberry32 (prng st)) * ((if Qeq_bool b 0 then a else b) -
                                    (if Qeq_bool b 0 then b else a)) +
      (if Qeq_bool b 0 then b else a))%Q
     (set_prng st (snd (mulberry32 (prng st))) (fst (mulberry32 (prng st)))).
Proof. reflexivity. Qed.

(** C6 (as amended): with [u] in [0,1) the next [mulberry32] output, a draw
    [rnd(a, b)] returns [u*a] when [b] is 0 (this covers [rnd()] and
    [rnd(a)]) and [a + u*(b-a)] otherwise.  So [rnd()] is in [0,1), [rnd(a)]
    in [0,a) for [a > 0] (in (a,0] for [a < 0], 0 for [a = 0]); for [b <> 0],
    [rnd(a,b)] is in [a,b) when [a < b], in (b,a] when [b < a], equal to [a]
    when [a = b]. *)
Theorem rnd_range (st : state) (a b r : Q) (st' : state) :
  rnd a b st = Ok r st' ->
  let u := fst (mulberry32 (prng st)) in
  (0 <= u < 1)%Q /\
  (b == 0 -> r == u * a /\
     (0 < a -> 0 <= r < a) /\ (a < 0 -> a < r <= 0) /\ (a == 0 -> r == 0))%Q /\
  (~ b == 0 -> r == a + u * (b - a) /\
     (a < b -> a <= r < b) /\ (b < a -> b < r <= a) /\ (a == b -> r == a))%Q.
Proof.
  pose proof (mulberry32_range (prng st)) as Hu.
  rewrite rnd_eq; destruct (mulberry32 (prng st)) as [u s'] eqn:Hm.
  simpl fst in *; simpl snd; intros H; injection H as <- _; cbv zeta.
  destruct Hu as [Hu0 Hu1].
  split; [split; assumption|split].
  - intros Hb; rewrite (proj2 (Qeq_bool_iff b 0) Hb).
    assert (E : (u * (a - b) + b == u * a)%Q) by (rewrite Hb; ring).
    repeat split; intros; nra.
  - intros Hb; destruct (Qeq_bool b 0) eqn:E.
    + apply Qeq_bool_iff in E; contradiction.
    + assert (E2 : (u * (b - a) + a == a + u * (b - a))%Q) by ring.
      repeat split; intros; nra.
Qed.

Lemma rnd_range_witness : (0 <= fst (mulberry32 1) < 1)%Q.
Proof. exact (proj1 (rnd_range (initial_state 1) 1 0 _ _ eq_refl)). Defined.

(** C6 fails as stated: the PRNG state [2463401483] (that is, the function
    returned by [randomFromSeed(2463401483)]) draws [u = 0] first, and
    [rnd(5, 2)] then returns 5, outside [[min(5,2), max(5,2))]. *)
Lemma rnd_range_counterexample :
  exists r st', rnd 5 2 (initial_state 2463401483) = Ok r st' /\
    (r == 5)%Q /\ ~ (Qmin 5 2 <= r < Qmax 5 2)%Q.
Proof.
  eexists; eexists; split; [reflexivity|].
  split; [vm_compute; reflexivity|].
  intros [_ H]; vm_compute in H; discriminate H.
Qed.

(** ** Traversal *)

Lemma some_st_app {S A} (f : S -> A -> S * bool) s xs ys :
  some_st f s (xs ++ ys) =
  let r := some_st f s xs in if snd r then r else some_st f (fst r) ys.
Proof.
  revert s; induction xs as [|a xs IH]; intros s; simpl; [reflexivity|].
  destruct (snd (f s a)); simpl; [reflexivity|apply IH].
Qed.

Lemma some_st_ext {S A} (f g : S -> A -> S * bool) s xs :
  (forall s a, f s a = g s a) -> some_st f s xs = some_st g s xs.
Proof.
  intros E; revert s; induction xs as [|a xs IH]; intros s; simpl;
    [reflexivity|rewrite E; destruct (snd (g s a)); auto].
Qed.

Lemma some_st_map {S A B} (f : S -> B -> S * bool) (g : A -> B) s xs :
  some_st f s (map g xs) = some_st (fun s a => f s (g a)) s xs.
Proof.
  revert s; induction xs as [|a xs IH]; intros s; simpl;
    [reflexivity|destruct (snd (f s (g a))); auto].
Qed.

Lemma some_st_flat_map {S A B} (F : A -> list B) (f : S -> B -> S * bool) s xs :
  some_st (fun s a => some_st f s (F a)) s xs = some_st f s (flat_map F xs).
Proof.
  revert s; induction xs as [|a xs IH]; intros s; simpl; [reflexivity|].
  rewrite some_st_app; destruct (some_st f s (F a)) as [s' [|]]; simpl; auto.
Qed.

Lemma forEachLineUntilTrue_flat {S} cfg ss (fn : S -> lref -> config -> S * bool) s :
  forEachLineUntilTrue cfg ss fn s =
  (fst (some_st (fun s r => fn s r cfg) s (forest_refs ss)), JsUndefined).
Proof.
  unfold forEachLineUntilTrue, forest_refs; f_equal; f_equal.
  rewrite <- some_st_flat_map; apply some_st_ext; intros s0 p.
  rewrite some_st_map; reflexivity.
Qed.

(** C7 (as amended): [forEachLineUntilTrue(fn)] feeds the visitor the lines
    of all seeds, seed by seed in the order of [seeds] and line by line in
    the order of each seed's [lines]; the traversal stops at the first line
    on which the visitor returns a truthy value, later lines are never
    visited; and the method returns [undefined] in every case. *)
Theorem forEachLineUntilTrue_order {S} cfg ss (fn : S -> lref -> config -> S * bool) s :
  forEachLineUntilTrue cfg ss fn s =
    (fst (some_st (fun s r => fn s r cfg) s (forest_refs ss)), JsUndefined) /\
  (forall pre r post s',
     forest_refs ss = pre ++ r :: post ->
     some_st (fun s r => fn s r cfg) s pre = (s', false) ->
     snd (fn s' r cfg) = true ->
     forEachLineUntilTrue cfg ss fn s = (fst (fn s' r cfg), JsUndefined)).
Proof.
  split; [apply forEachLineUntilTrue_flat|].
  intros pre r post s' E Hpre Hr.
  rewrite forEachLineUntilTrue_flat, E, some_st_app, Hpre; simpl.
  rewrite Hr; reflexivity.
Qed.

Lemma forEachLineUntilTrue_counterexample :
  snd (forEachLineUntilTrue example_config
         (Some [mkSeed 0 [segment 0 0 1 1]]) (fun (s : unit) _ _ => (s, true)) tt)
    = JsUndefined /\
  JsUndefined <> JsBool true.
Proof. split; [reflexivity|discriminate]. Qed.

(** ** The collision detector *)

(** C5: when the line's tip is off screen, [checkForCollisions] returns
    true whatever the traversal it is given (it does not call it);
    otherwise it returns true iff some line of the forest, active or not,
    other than the line itself, its parent and its children, intersects it
    (the scan stops at the first one; lines skipped never count, whatever
    their geometry). *)
Theorem checkForCollisions_spec (isVisible : Q -> Q -> bool) cfg ss si1 li1 l1 :
  (lineOffscreen isVisible l1 = true ->
   forall trav, checkForCollisions isVisible (si1, li1, l1) trav = true) /\
  (lineOffscreen isVisible l1 = false ->
   checkForCollisions isVisible (si1, li1, l1)
     (fun fn s => forEachLineUntilTrue cfg ss fn s) =
   existsb (fun r => negb (excluded (si1, li1, l1) r) && linesIntersect l1 (snd r))
     (forest_refs ss)).
Proof.
  split; intros H; [intros trav; unfold checkForCollisions; rewrite H; reflexivity|].
  unfold checkForCollisions; rewrite H, forEachLineUntilTrue_flat; simpl fst.
  induction (forest_refs ss) as [|[[si2 li2] l2] xs IH]; [reflexivity|].
  simpl. unfold excluded.
  destruct ((Nat.eqb si1 si2 && Nat.eqb li1 li2) || parent_is si1 l1 si2 li2 ||
            parent_is si2 l2 si1 li1); simpl; [exact IH|].
  destruct (linesIntersect l1 l2); simpl; [reflexivity|exact IH].
Qed.

(** ** Lists updated by index *)

Open Scope nat_scope.

Lemma length_list_set {A} (l : list A) i v : length (list_set l i v) = length l.
Proof. revert i; induction l as [|a l IH]; intros [|i]; simpl; auto. Qed.

Lemma nth_error_list_set_eq {A} (l : list A) i v :
  i < length l -> nth_error (list_set l i v) i = Some v.
Proof.
  revert i; induction l as [|a l IH]; intros [|i] H; simpl in *; try lia; auto;
    apply IH; lia.
Qed.

Lemma nth_error_list_set_ne {A} (l : list A) i j v :
  i <> j -> nth_error (list_set l i v) j = nth_error l j.
Proof.
  revert i j; induction l as [|a l IH]; intros [|i] [|j] H; simpl; auto; try lia;
    apply IH; lia.
Qed.

Lemma list_set_list_set {A} (l : list A) i v w :
  list_set (list_set l i v) i w = list_set l i w.
Proof. revert i; induction l as [|a l IH]; intros [|i]; simpl; f_equal; auto. Qed.

Lemma list_set_app_l {A} (l e : list A) i v :
  i < length l -> list_set (l ++ e) i v = list_set l i v ++ e.
Proof.
  revert i; induction l as [|a l IH]; intros [|i] H; simpl in *; try lia; auto;
    f_equal; apply IH; lia.
Qed.

Lemma list_set_nth_same {A} (l : list A) i v :
  nth_error l i = Some v -> list_set l i v = l.
Proof.
  revert i; induction l as [|a l IH]; intros [|i] H; simpl in *; try discriminate;
    [injection H as ->; reflexivity|f_equal; apply IH; exact H].
Qed.

Lemma nth_error_Some_lt {A} (l : list A) i v : nth_error l i = Some v -> i < length l.
Proof. intros H; apply nth_error_Some; congruence. Qed.

(** ** The monad's primitives *)

Lemma bind_ok {A B} (m : M A) (k : A -> M B) st a st' :
  m st = Ok a st' -> bind m k st = k a st'.
Proof. unfold bind; intros ->; reflexivity. Qed.

Lemma bind_inv {A B} (m : M A) (k : A -> M B) st b st' :
  bind m k st = Ok b st' -> exists a st1, m st = Ok a st1 /\ k a st1 = Ok b st'.
Proof. unfold bind; destruct (m st) as [a st1|e]; [eauto|discriminate]. Qed.

Lemma get_line_ok st ss si sd li l :
  seeds st = Some ss -> nth_error ss si = Some sd -> nth_error (lines sd) li = Some l ->
  get_line si li st = Ok l st.
Proof.
  intros Hs Hsd Hl; unfold get_line, lookup_line, lookup_seed; rewrite Hs, Hsd, Hl;
    reflexivity.
Qed.

Lemma get_seed_ok st ss si sd :
  seeds st = Some ss -> nth_error ss si = Some sd -> get_seed si st = Ok sd st.
Proof. intros Hs Hsd; unfold get_seed, lookup_seed; rewrite Hs, Hsd; reflexivity. Qed.

Lemma set_line_ok st ss si sd li l :
  seeds st = Some ss -> nth_error ss si = Some sd ->
  set_line si li l st =
  Ok tt (set_seeds st (Some (list_set ss si (mkSeed (seed_angle sd) (list_set (lines sd) li l))))).
Proof.
  intros Hs Hsd; unfold set_line; rewrite (bind_ok _ _ _ _ _ (get_seed_ok _ _ _ _ Hs Hsd)).
  unfold put_seed; rewrite Hs; reflexivity.
Qed.

Lemma push_line_ok st ss si sd l :
  seeds st = Some ss -> nth_error ss si = Some sd ->
  push_line si l st =
  Ok tt (set_seeds st (Some (list_set ss si (mkSeed (seed_angle sd) (lines sd ++ [l]))))).
Proof.
  intros Hs Hsd; unfold push_line; rewrite (bind_ok _ _ _ _ _ (get_seed_ok _ _ _ _ Hs Hsd)).
  unfold put_seed; rewrite Hs; reflexivity.
Qed.

Lemma Qlt_bool_iff a b : Qlt_bool a b = true <-> (a < b)%Q.
Proof.
  unfold Qlt_bool; rewrite negb_true_iff; split; intros H.
  - apply Qnot_le_lt; intros H'; apply Qle_bool_iff in H'; congruence.
  - destruct (Qle_bool b a) eqn:E; [apply Qle_bool_iff in E|reflexivity].
    exfalso; apply (Qlt_not_le _ _ H E).
Qed.

Lemma Qlt_bool_compat a a' b : (a == a')%Q -> Qlt_bool a b = Qlt_bool a' b.
Proof.
  intros E; destruct (Qlt_bool a' b) eqn:H.
  - apply Qlt_bool_iff; apply Qlt_bool_iff in H; rewrite E; exact H.
  - destruct (Qlt_bool a b) eqn:H'; [|reflexivity].
    apply Qlt_bool_iff in H'; rewrite E in H'; apply Qlt_bool_iff in H'; congruence.
Qed.

Lemma point_eta (p : point) : mkPoint (x p) (y p) = p.
Proof. destruct p; reflexivity. Qed.

Lemma count_active_app (a b : list line) :
  count_active (a ++ b) = count_active a + count_active b.
Proof. unfold count_active; rewrite filter_app, length_app; reflexivity. Qed.

Lemma count_active_list_set (ls : list line) i v w :
  nth_error ls i = Some w ->
  count_active (list_set ls i v) + (if active w then 1 else 0) =
  count_active ls + (if active v then 1 else 0).
Proof.
  unfold count_active; revert i; induction ls as [|a ls IH]; intros [|i] H;
    simpl in *; try discriminate.
  - injection H as ->; destruct (active v), (active w); simpl; lia.
  - specialize (IH i H); destruct (active a); simpl; lia.
Qed.

Lemma active_from_in (ls : list line) k j :
  In j (map fst (filter (fun p => active (snd p)) (combine (seq k (length ls)) ls))) <->
  k <= j /\ exists l, nth_error ls (j - k) = Some l /\ active l = true.
Proof.
  revert k; induction ls as [|a ls IH]; intros k; simpl.
  - split; [intros []|intros (_ & l & H & _); destruct (j - k); discriminate].
  - assert (E : forall P : Prop, (P <-> S k <= j /\ exists l,
               nth_error ls (j - S k) = Some l /\ active l = true) ->
            ((if active a then k = j \/ P else P) <->
             k <= j /\ exists l, nth_error (a :: ls) (j - k) = Some l /\ active l = true)).
    { intros P HP; split.
      - intros H; destruct (active a) eqn:Ha; [destruct H as [<-|H]|].
        + split; [lia|]; rewrite Nat.sub_diag; exists a; split; [reflexivity|exact Ha].
        + apply HP in H; destruct H as (Hj & l & Hl & Hal); split; [lia|];
            replace (j - k) with (S (j - S k)) by lia; exists l; split; assumption.
        + apply HP in H; destruct H as (Hj & l & Hl & Hal); split; [lia|];
            replace (j - k) with (S (j - S k)) by lia; exists l; split; assumption.
      - intros (Hj & l & Hl & Hal).
        destruct (Nat.eq_dec j k) as [->|Hne].
        + rewrite Nat.sub_diag in Hl; injection Hl as ->; rewrite Hal; left; reflexivity.
        + replace (j - k) with (S (j - S k)) in Hl by lia.
          assert (H' : P) by (apply HP; split; [lia|exists l; split; assumption]).
          destruct (active a); [right|]; exact H'. }
    destruct (active a); simpl; apply E; apply IH.
Qed.

Lemma active_from_nodup (ls : list line) k :
  NoDup (map fst (filter (fun p => active (snd p)) (combine (seq k (length ls)) ls))).
Proof.
  revert k; induction ls as [|a ls IH]; intros k; simpl; [constructor|].
  destruct (active a); simpl; [|apply IH].
  constructor; [|apply IH].
  intros H; apply active_from_in in H; lia.
Qed.

Lemma active_indices_in ls j :
  In j (active_indices ls) <-> exists l, nth_error ls j = Some l /\ active l = true.
Proof.
  unfold active_indices, indexed; rewrite active_from_in, Nat.sub_0_r.
  split; [intros []; auto|intros H; split; [lia|exact H]].
Qed.

Lemma active_indices_nodup ls : NoDup (active_indices ls).
Proof. apply active_from_nodup. Qed.

Lemma nth_error_set_app (cur extra : list line) j0 v j :
  j <> j0 -> j < length cur -> nth_error (list_set cur j0 v ++ extra) j = nth_error cur j.
Proof.
  intros Hne Hj; rewrite nth_error_app1 by (rewrite length_list_set; exact Hj).
  apply nth_error_list_set_ne; auto.
Qed.

Lemma count_forest_list_set ss si sd sd' :
  nth_error ss si = Some sd ->
  count_forest (list_set ss si sd') + count_active (lines sd) =
  count_forest ss + count_active (lines sd').
Proof.
  unfold count_forest; revert si; induction ss as [|a ss IH]; intros [|i] H;
    simpl in *; try discriminate.
  - injection H as ->; lia.
  - specialize (IH i H); lia.
Qed.

Section ModelProofs.

Variables (sin cos : Q -> Q) (PI : Q) (isVisible : Q -> Q -> bool).

Lemma line_grow_shape cfg l st l' st' :
  line_grow sin cos cfg l st = Ok l' st' ->
  seeds st' = seeds st /\ activeLineCount st' = activeLineCount st /\
  p0 l' = p0 l /\
  p1 l' = mkPoint (x (p1 l) + sin (angle l) * growthRate)
                  (y (p1 l) + cos (angle l) * growthRate)%Q /\
  angle l' = angle l /\ generation l' = generation l /\ parent l' = parent l /\
  active l' = active l /\ steps l' = S (steps l) /\ line_rnd l' = line_rnd l.
Proof.
  unfold line_grow, bind, rnd0, ret; rewrite !rnd_eq; intros H.
  match type of H with Ok (if ?c then _ else _) _ = _ => destruct c end;
    injection H as <- <-; repeat split.
Qed.

Lemma line_grow_total cfg l st : exists l' st', line_grow sin cos cfg l st = Ok l' st'.
Proof.
  eexists; eexists; unfold line_grow, bind, rnd0, ret.
  rewrite rnd_eq; cbv beta iota; rewrite rnd_eq; reflexivity.
Qed.

Lemma buildLine_total cfg p a par st :
  exists c st', buildLine sin cos cfg p a par st = Ok c st'.
Proof.
  unfold buildLine, bind, rnd0, incr_count; rewrite rnd_eq; cbv beta iota.
  apply line_grow_total.
Qed.

Lemma buildLine_shape cfg p a par st c st' :
  buildLine sin cos cfg p a par st = Ok c st' ->
  seeds st' = seeds st /\ activeLineCount st' = (activeLineCount st + 1)%Z /\
  p0 c = p /\ angle c = a /\ parent c = option_map fst par /\
  generation c = match par with Some pl => S (generation (snd pl)) | None => O end /\
  active c = true /\ steps c = 1.
Proof.
  unfold buildLine; intros H.
  apply bind_inv in H as (r & st1 & H1 & H); unfold rnd0 in H1; rewrite rnd_eq in H1;
    injection H1 as _ <-.
  apply bind_inv in H as ([] & st2 & H2 & H); injection H2 as <-.
  apply line_grow_shape in H; simpl in H.
  destruct H as (-> & -> & -> & _ & -> & -> & -> & -> & -> & _); simpl; repeat split.
Qed.

Lemma get_bind {A} (k : state -> M A) st : bind get k st = k st st.
Proof. reflexivity. Qed.

Lemma set_line_put stg ss si sd li l1 l2 :
  seeds stg = Some ss -> nth_error ss si = Some sd ->
  set_line si li l2 (put_line stg ss si sd li l1) = Ok tt (put_line stg ss si sd li l2).
Proof.
  intros Hs Hsd.
  rewrite (set_line_ok _ (list_set ss si (mkSeed (seed_angle sd) (list_set (lines sd) li l1)))
             si (mkSeed (seed_angle sd) (list_set (lines sd) li l1)));
    [| reflexivity | apply nth_error_list_set_eq; eapply nth_error_Some_lt; eauto].
  unfold put_line, set_seeds; simpl; rewrite !list_set_list_set; reflexivity.
Qed.

(** The four outcomes of the per-line body of [seed.grow()]. *)
Lemma process_line_cases cfg st ss si sd li l l1 stg :
  seeds st = Some ss -> nth_error ss si = Some sd -> nth_error (lines sd) li = Some l ->
  line_grow sin cos cfg l st = Ok l1 stg ->
  let put := put_line stg ss si sd li in
  let dec st := set_count st (activeLineCount st - 1)%Z in
  let collides := checkForCollisions isVisible (si, li, l1)
                    (fun fn s => forEachLineUntilTrue cfg (seeds (put l1)) fn s) in
  (expired l1 = true ->
   process_line sin cos PI isVisible cfg si li st = Ok tt (dec (put (with_active l1 false)))) /\
  (expired l1 = false -> collides = true ->
   process_line sin cos PI isVisible cfg si li st =
     Ok tt (dec (put (with_active (clip sin cos l1) false)))) /\
  (expired l1 = false -> collides = false -> split l1 = false ->
   process_line sin cos PI isVisible cfg si li st = Ok tt (put l1)) /\
  (expired l1 = false -> collides = false -> split l1 = true ->
   exists c st',
     process_line sin cos PI isVisible cfg si li st = Ok tt st' /\
     seeds st' = Some (list_set ss si (mkSeed (seed_angle sd)
                        (list_set (lines sd) li (with_split l1 false) ++ [c]))) /\
     activeLineCount st' = (activeLineCount st + 1)%Z /\
     p0 c = p1 l1 /\
     angle c = (angle l1 + PI / 2 *
                (if Qlt_bool (fst (mulberry32 (prng stg))) (1#2) then 1 else -1))%Q /\
     generation c = S (generation l1) /\ parent c = Some li /\
     active c = true /\ steps c = 1).
Proof.
  intros Hs Hsd Hl Hg; cbv zeta.
  pose proof (line_grow_shape _ _ _ _ _ Hg) as (Hgs & Hgc & _).
  assert (Hgs' : seeds stg = Some ss) by congruence.
  unfold process_line.
  rewrite (bind_ok _ _ _ _ _ (get_line_ok _ _ _ _ _ _ Hs Hsd Hl)).
  rewrite (bind_ok _ _ _ _ _ Hg).
  rewrite (bind_ok _ _ _ _ _ (set_line_ok _ _ _ _ _ _ Hgs' Hsd)).
  fold (put_line stg ss si sd li l1).
  repeat split.
  - intros E; rewrite E.
    rewrite (bind_ok _ _ _ _ _ (set_line_put _ _ _ _ _ _ _ Hgs' Hsd)); reflexivity.
  - intros E C; rewrite E, get_bind, C.
    rewrite (bind_ok _ _ _ _ _ (set_line_put _ _ _ _ _ _ _ Hgs' Hsd)); reflexivity.
  - intros E C S'; rewrite E, get_bind, C, S'; reflexivity.
  - intros E C S'; rewrite E, get_bind, C, S'.
    rewrite (bind_ok _ _ _ _ _ (set_line_put _ _ _ _ _ _ _ Hgs' Hsd)).
    unfold rnd0 at 1; rewrite (bind_ok _ _ _ _ _ (rnd_eq _ _ _)).
    cbv beta.
    match goal with |- context [bind (buildLine ?a1 ?a2 ?a3 ?a4 ?a5 ?a6) _ ?st2] =>
      destruct (buildLine_total a3 a4 a5 a6 st2) as (c & st3 & B) end.
    rewrite (bind_ok _ _ _ _ _ B).
    pose proof (buildLine_shape _ _ _ _ _ _ _ B) as (Bs & Bc & Bp & Ba & Bpar & Bg & Bact & Bst).
    exists c; eexists; split.
    { rewrite (push_line_ok _ (list_set ss si (mkSeed (seed_angle sd)
                 (list_set (lines sd) li (with_split l1 false))))
                 si (mkSeed (seed_angle sd) (list_set (lines sd) li (with_split l1 false))));
        [reflexivity| rewrite Bs; reflexivity |
         apply nth_error_list_set_eq; eapply nth_error_Some_lt; eauto]. }
    simpl; rewrite list_set_list_set; repeat split; auto.
    + rewrite Bc; simpl; rewrite Hgc; reflexivity.
    + rewrite Bp; apply point_eta.
    + rewrite Ba; simpl. rewrite (Qlt_bool_compat _ (fst (mulberry32 (prng stg))));
        [reflexivity|].
      assert (Hu : forall q : Q, (q * (1 - 0) + 0 == q)%Q) by (intros; ring).
      apply Hu.
Qed.


(** C2: [seed.grow()] runs the per-line body on each line of the active
    snapshot; the body first grows the line, then: if the grown line is
    expired it is deactivated (tip kept, no retraction) and the counter
    decremented; otherwise, if the collision detector (run over the current
    forest, where the line already has its new tip) reports a collision,
    the line is retracted by one step (its tip goes back to where it was
    before the grow), deactivated, and the counter decremented; otherwise,
    if its split flag is set, the flag is cleared and exactly one child is
    appended to the same seed's lines, at the line's tip, with angle the
    parent's plus or minus [PI/2] according to the next draw, and the
    counter incremented; otherwise nothing else changes. *)
Theorem seed_grow_line_step cfg st ss si sd li l l1 stg :
  seeds st = Some ss -> nth_error ss si = Some sd -> nth_error (lines sd) li = Some l ->
  line_grow sin cos cfg l st = Ok l1 stg ->
  let put := put_line stg ss si sd li in
  let dec st := set_count st (activeLineCount st - 1)%Z in
  let collides := checkForCollisions isVisible (si, li, l1)
                    (fun fn s => forEachLineUntilTrue cfg (seeds (put l1)) fn s) in
  seed_grow sin cos PI isVisible cfg si st =
    forM_ (active_indices (lines sd)) (process_line sin cos PI isVisible cfg si) st /\
  (expired l1 = true ->
   process_line sin cos PI isVisible cfg si li st = Ok tt (dec (put (with_active l1 false)))) /\
  (expired l1 = false -> collides = true ->
   process_line sin cos PI isVisible cfg si li st =
     Ok tt (dec (put (with_active (clip sin cos l1) false))) /\
   (x (p1 (clip sin cos l1)) == x (p1 l) /\ y (p1 (clip sin cos l1)) == y (p1 l))%Q) /\
  (expired l1 = false -> collides = false -> split l1 = false ->
   process_line sin cos PI isVisible cfg si li st = Ok tt (put l1)) /\
  (expired l1 = false -> collides = false -> split l1 = true ->
   exists c st',
     process_line sin cos PI isVisible cfg si li st = Ok tt st' /\
     seeds st' = Some (list_set ss si (mkSeed (seed_angle sd)
                        (list_set (lines sd) li (with_split l1 false) ++ [c]))) /\
     activeLineCount st' = (activeLineCount st + 1)%Z /\
     p0 c = p1 l1 /\
     angle c = (angle l1 + PI / 2 *
                (if Qlt_bool (fst (mulberry32 (prng stg))) (1#2) then 1 else -1))%Q /\
     generation c = S (generation l1) /\ parent c = Some li /\
     active c = true /\ steps c = 1).
Proof.
  intros Hs Hsd Hl Hg.
  destruct (process_line_cases cfg st ss si sd li l l1 stg Hs Hsd Hl Hg)
    as (C1 & C2 & C3 & C4).
  pose proof (line_grow_shape _ _ _ _ _ Hg) as (_ & _ & _ & Hp1 & Ha & _).
  split; [unfold seed_grow; exact (bind_ok _ _ _ _ _ (get_seed_ok _ _ _ _ Hs Hsd))|].
  split; [exact C1|]. split; [|split; [exact C3|exact C4]].
  intros E C; split; [exact (C2 E C)|].
  unfold clip; simpl; rewrite Hp1, Ha; simpl; split; ring.
Qed.

Lemma process_line_shape cfg st ss si sd li l st' :
  seeds st = Some ss -> nth_error ss si = Some sd -> nth_error (lines sd) li = Some l ->
  process_line sin cos PI isVisible cfg si li st = Ok tt st' ->
  exists l' extra (dec : bool),
    seeds st' = Some (list_set ss si (mkSeed (seed_angle sd) (list_set (lines sd) li l' ++ extra))) /\
    steps l' = S (steps l) /\ parent l' = parent l /\ active l' = active l && negb dec /\
    activeLineCount st' =
      (activeLineCount st - (if dec then 1 else 0) + Z.of_nat (length extra))%Z /\
    (extra = [] \/
     exists c, extra = [c] /\ steps c = 1 /\ active c = true /\ parent c = Some li).
Proof.
  intros Hs Hsd Hl H.
  destruct (line_grow_total cfg l st) as (l1 & stg & Hg).
  destruct (process_line_cases cfg st ss si sd li l l1 stg Hs Hsd Hl Hg)
    as (C1 & C2 & C3 & C4); cbv zeta in C1, C2, C3, C4.
  pose proof (line_grow_shape _ _ _ _ _ Hg) as (Hgs & Hgc & _ & _ & _ & _ & Hpar & Hact & Hst & _).
  destruct (expired l1) eqn:E.
  { rewrite (C1 eq_refl) in H; injection H as <-.
    exists (with_active l1 false), [], true; simpl; rewrite app_nil_r, andb_false_r.
    repeat split; auto; simpl; rewrite Hgc; lia. }
  destruct (checkForCollisions _ _ _) eqn:C.
  { rewrite (C2 eq_refl eq_refl) in H; injection H as <-.
    exists (with_active (clip sin cos l1) false), [], true; simpl;
      rewrite app_nil_r, andb_false_r.
    repeat split; auto; simpl; rewrite Hgc; lia. }
  destruct (split l1) eqn:S'.
  { destruct (C4 eq_refl eq_refl eq_refl) as (c & st2 & H2 & Hs2 & Hc2 & _ & _ & _ & Hpc & Hac & Hstc).
    rewrite H2 in H; injection H as <-.
    exists (with_split l1 false), [c], false; simpl; rewrite andb_true_r.
    repeat split; auto; [lia|right; eauto]. }
  rewrite (C3 eq_refl eq_refl eq_refl) in H; injection H as <-.
  exists l1, [], false; unfold put_line; simpl; rewrite app_nil_r, andb_true_r.
  repeat split; auto; rewrite Hgc; lia.
Qed.

(** The [forEach] of [seed.grow()] over a list [rest] of distinct indices of
    lines that are active in the seed's current lines [cur]. *)
Lemma forM_process_line cfg si rest : forall st ss a cur st',
  seeds st = Some ss -> nth_error ss si = Some (mkSeed a cur) ->
  NoDup rest -> (forall j, In j rest -> exists l, nth_error cur j = Some l /\ active l = true) ->
  forM_ rest (process_line sin cos PI isVisible cfg si) st = Ok tt st' ->
  exists cur', seeds st' = Some (list_set ss si (mkSeed a cur')) /\
    length cur <= length cur' /\
    (forall j l, nth_error cur j = Some l -> exists l', nth_error cur' j = Some l' /\
        (In j rest -> steps l' = S (steps l) /\ parent l' = parent l) /\
        (~ In j rest -> l' = l)) /\
    (forall j c, length cur <= j -> nth_error cur' j = Some c ->
        steps c = 1 /\ active c = true /\ exists p, parent c = Some p /\ In p rest) /\
    (Z.of_nat (count_active cur') - activeLineCount st' =
     Z.of_nat (count_active cur) - activeLineCount st)%Z.
Proof.
  induction rest as [|j0 rest IH]; intros st ss a cur st' Hs Hsd Hnd Hact H.
  { simpl in H; injection H as <-.
    exists cur; split; [|split; [lia|split; [|split]]].
    - rewrite Hs; f_equal; symmetry; apply list_set_nth_same; exact Hsd.
    - intros j l Hj; exists l; split; [exact Hj|split; [intros []|auto]].
    - intros j c Hj Hc; apply nth_error_Some_lt in Hc; lia.
    - lia. }
  simpl in H; apply bind_inv in H as ([] & st1 & H1 & H2).
  destruct (Hact j0 (or_introl eq_refl)) as (l0 & Hl0 & Ha0).
  destruct (process_line_shape cfg st ss si (mkSeed a cur) j0 l0 st1 Hs Hsd Hl0 H1)
    as (l0' & extra & dec & Hs1 & Hst0 & Hp0 & Ha0' & Hc1 & Hex); simpl in Hs1.
  inversion Hnd as [|? ? Hnin Hnd']; subst.
  assert (Hlt0 : j0 < length cur) by (eapply nth_error_Some_lt; eauto).
  assert (Hsi : si < length ss) by (eapply nth_error_Some_lt; eauto).
  assert (Hlen1 : length (list_set cur j0 l0' ++ extra) = length cur + length extra)
    by (rewrite length_app, length_list_set; reflexivity).
  assert (Hj0 : nth_error (list_set cur j0 l0' ++ extra) j0 = Some l0')
    by (rewrite nth_error_app1 by (rewrite length_list_set; exact Hlt0);
        apply nth_error_list_set_eq; exact Hlt0).
  assert (Hrest : forall j, In j rest -> j < length cur /\ j <> j0).
  { intros j Hj; destruct (Hact j (or_intror Hj)) as (l & Hl & _); split;
      [eapply nth_error_Some_lt; eauto|intros ->; contradiction]. }
  destruct (IH st1 (list_set ss si (mkSeed a (list_set cur j0 l0' ++ extra))) a
              (list_set cur j0 l0' ++ extra) st' Hs1) as (cur' & Hs' & Hlen' & Hold & Hnew & Hcnt).
  { apply nth_error_list_set_eq; exact Hsi. }
  { exact Hnd'. }
  { intros j Hj; destruct (Hrest j Hj) as [Hlt Hne];
      rewrite nth_error_set_app by assumption; apply Hact; right; exact Hj. }
  { exact H2. }
  exists cur'; split; [rewrite Hs', list_set_list_set; reflexivity|].
  split; [lia|split; [|split]].
  - intros j l Hj; destruct (Nat.eq_dec j j0) as [->|Hne].
    + rewrite Hl0 in Hj; injection Hj as <-.
      destruct (Hold j0 l0' Hj0) as (l' & Hl' & _ & Hn).
      rewrite (Hn Hnin) in Hl'.
      exists l0'; split; [exact Hl'|split; [intros _; split; assumption|]].
      intros Hn'; exfalso; apply Hn'; left; reflexivity.
    + assert (Hlt : j < length cur) by (eapply nth_error_Some_lt; eauto).
      rewrite <- (nth_error_set_app cur extra j0 l0' j Hne Hlt) in Hj.
      destruct (Hold j l Hj) as (l' & Hl' & Hi & Hn).
      exists l'; split; [exact Hl'|split].
      * intros [->|Hj']; [congruence|auto].
      * intros Hj'; apply Hn; intros Hj''; apply Hj'; right; exact Hj''.
  - intros j c Hj Hc.
    destruct (Nat.lt_ge_cases j (length cur + length extra)) as [Hlt|Hge].
    + destruct Hex as [->|(c0 & -> & Hsc & Hac & Hpc)]; simpl in Hlt; [lia|].
      assert (Hjc : j = length cur) by lia; subst j.
      assert (Hc0 : nth_error (list_set cur j0 l0' ++ [c0]) (length cur) = Some c0).
      { rewrite nth_error_app2 by (rewrite length_list_set; lia).
        rewrite length_list_set, Nat.sub_diag; reflexivity. }
      destruct (Hold _ _ Hc0) as (l' & Hl' & _ & Hn).
      assert (Hni : ~ In (length cur) rest) by (intros Hi; apply Hrest in Hi; lia).
      rewrite (Hn Hni) in Hl'; rewrite Hl' in Hc; injection Hc as <-.
      split; [exact Hsc|split; [exact Hac|exists j0; split; [exact Hpc|left; reflexivity]]].
    + destruct (Hnew j c ltac:(lia) Hc) as (Hsc & Hac & p & Hp & Hin).
      split; [exact Hsc|split; [exact Hac|exists p; split; [exact Hp|right; exact Hin]]].
  - pose proof (count_active_list_set cur j0 l0' l0 Hl0) as Hca.
    rewrite count_active_app in Hcnt.
    rewrite Ha0', Ha0 in Hca.
    destruct Hex as [->|(c0 & -> & _ & Hac & _)]; unfold count_active in *; simpl in *;
      [|rewrite Hac in Hcnt; simpl in Hcnt]; destruct dec; simpl in *; lia.
Qed.

Lemma seed_grow_shape cfg si st ss sd st' :
  seeds st = Some ss -> nth_error ss si = Some sd ->
  seed_grow sin cos PI isVisible cfg si st = Ok tt st' ->
  exists ls', seeds st' = Some (list_set ss si (mkSeed (seed_angle sd) ls')) /\
    tick_rel (lines sd) ls' /\
    (Z.of_nat (count_active ls') - activeLineCount st' =
     Z.of_nat (count_active (lines sd)) - activeLineCount st)%Z.
Proof.
  intros Hs Hsd H; unfold seed_grow in H.
  rewrite (bind_ok _ _ _ _ _ (get_seed_ok _ _ _ _ Hs Hsd)) in H.
  destruct sd as [a cur]; simpl in *.
  destruct (forM_process_line cfg si (active_indices cur) st ss a cur st' Hs Hsd
              (active_indices_nodup cur) (fun j Hj => proj1 (active_indices_in cur j) Hj) H)
    as (cur' & Hs' & Hlen & Hold & Hnew & Hcnt).
  exists cur'; split; [exact Hs'|split; [|exact Hcnt]].
  split; [exact Hlen|split].
  - intros j l Hj; destruct (Hold j l Hj) as (l' & Hl' & Hi & Hn).
    exists l'; split; [exact Hl'|split].
    + intros Ha; apply Hi, active_indices_in; eauto.
    + intros Ha; apply Hn; intros Hi'; apply active_indices_in in Hi'.
      destruct Hi' as (l2 & Hl2 & Ha2); congruence.
  - intros j c Hj Hc; destruct (Hnew j c Hj Hc) as (Hsc & Hac & p & Hp & Hin).
    apply active_indices_in in Hin; destruct Hin as (l & Hl & Hal).
    split; [exact Hsc|split; [exact Hac|exists p, l; auto]].
Qed.

(** The [forEach] of [model.grow()] over distinct seed indices [idx]. *)
Lemma forM_seed_grow cfg idx : forall st ss st',
  seeds st = Some ss -> NoDup idx -> (forall i, In i idx -> i < length ss) ->
  forM_ idx (seed_grow sin cos PI isVisible cfg) st = Ok tt st' ->
  exists ss', seeds st' = Some ss' /\ length ss' = length ss /\
    (forall si sd, nth_error ss si = Some sd -> exists sd', nth_error ss' si = Some sd' /\
       seed_angle sd' = seed_angle sd /\
       (In si idx -> tick_rel (lines sd) (lines sd')) /\ (~ In si idx -> sd' = sd)) /\
    (Z.of_nat (count_forest ss') - activeLineCount st' =
     Z.of_nat (count_forest ss) - activeLineCount st)%Z.
Proof.
  induction idx as [|i0 idx IH]; intros st ss st' Hs Hnd Hlt H.
  { simpl in H; injection H as <-.
    exists ss; split; [exact Hs|split; [reflexivity|split; [|lia]]].
    intros si sd Hsd; exists sd; split; [exact Hsd|split; [reflexivity|split; [intros []|auto]]]. }
  simpl in H; apply bind_inv in H as ([] & st1 & H1 & H2).
  inversion Hnd as [|? ? Hnin Hnd']; subst.
  destruct (nth_error ss i0) as [sd0|] eqn:Hsd0;
    [|apply nth_error_None in Hsd0; specialize (Hlt i0 (or_introl eq_refl)); lia].
  destruct (seed_grow_shape cfg i0 st ss sd0 st1 Hs Hsd0 H1) as (ls0 & Hs1 & Hrel0 & Hc0).
  destruct (IH st1 _ st' Hs1 Hnd') as (ss' & Hs' & Hlen' & Hold & Hcnt).
  { intros i Hi; rewrite length_list_set; apply Hlt; right; exact Hi. }
  { exact H2. }
  exists ss'; split; [exact Hs'|split; [rewrite Hlen', length_list_set; reflexivity|split]].
  - intros si sd Hsd; destruct (Nat.eq_dec si i0) as [->|Hne].
    + rewrite Hsd0 in Hsd; injection Hsd as <-.
      assert (Hi0 : nth_error (list_set ss i0 (mkSeed (seed_angle sd0) ls0)) i0 =
                    Some (mkSeed (seed_angle sd0) ls0))
        by (apply nth_error_list_set_eq; eapply nth_error_Some_lt; eauto).
      destruct (Hold _ _ Hi0) as (sd' & Hsd' & _ & _ & Hn).
      rewrite (Hn Hnin) in Hsd'.
      exists (mkSeed (seed_angle sd0) ls0); split; [exact Hsd'|split; [reflexivity|split]].
      * intros _; exact Hrel0.
      * intros Hn'; exfalso; apply Hn'; left; reflexivity.
    + rewrite <- (nth_error_list_set_ne ss i0 si (mkSeed (seed_angle sd0) ls0)) in Hsd
        by (intros E; apply Hne; symmetry; exact E).
      destruct (Hold _ _ Hsd) as (sd' & Hsd' & Ha & Hi & Hn).
      exists sd'; split; [exact Hsd'|split; [exact Ha|split]].
      * intros [->|Hsi]; [congruence|auto].
      * intros Hsi; apply Hn; intros Hsi'; apply Hsi; right; exact Hsi'.
  - pose proof (count_forest_list_set ss i0 sd0 (mkSeed (seed_angle sd0) ls0) Hsd0) as Hf.
    simpl in Hf; lia.
Qed.

Lemma model_grow_shape cfg st ss st' :
  seeds st = Some ss ->
  model_grow sin cos PI isVisible cfg st = Ok tt st' ->
  exists ss', seeds st' = Some ss' /\ length ss' = length ss /\
    (forall si sd, nth_error ss si = Some sd -> exists sd', nth_error ss' si = Some sd' /\
      seed_angle sd' = seed_angle sd /\ tick_rel (lines sd) (lines sd')) /\
    (Z.of_nat (count_forest ss') - activeLineCount st' =
     Z.of_nat (count_forest ss) - activeLineCount st)%Z.
Proof.
  intros Hs H; unfold model_grow in H; rewrite get_bind, Hs in H.
  destruct (forM_seed_grow cfg (seq 0 (length ss)) st ss st' Hs (seq_NoDup _ _)
              (fun i Hi => proj2 (proj1 (in_seq _ _ _) Hi)) H)
    as (ss' & Hs' & Hlen & Hold & Hcnt).
  exists ss'; split; [exact Hs'|split; [exact Hlen|split; [|exact Hcnt]]].
  intros si sd Hsd; destruct (Hold si sd Hsd) as (sd' & Hsd' & Ha & Hi & _).
  exists sd'; split; [exact Hsd'|split; [exact Ha|apply Hi]].
  apply in_seq; split; [lia|eapply nth_error_Some_lt; eauto].
Qed.

(** C3: a call of [model.grow()] on a generated model leaves the seeds in
    place and, in each seed, acts on the lines as [tick_rel] says: the
    [forEach] visits exactly the lines that were active when the seed's
    [filter] ran, each once (one step each), leaves the others untouched,
    and skips the lines pushed during the tick; each of those is a child of
    a visited line and has been grown, with its split and expiry draws,
    once, by [buildLine] at its creation. *)
Theorem model_grow_snapshot cfg st ss st' :
  seeds st = Some ss ->
  model_grow sin cos PI isVisible cfg st = Ok tt st' ->
  exists ss', seeds st' = Some ss' /\ length ss' = length ss /\
    forall si sd, nth_error ss si = Some sd -> exists sd', nth_error ss' si = Some sd' /\
      seed_angle sd' = seed_angle sd /\ tick_rel (lines sd) (lines sd').
Proof.
  intros Hs H; destruct (model_grow_shape cfg st ss st' Hs H) as (ss' & ? & ? & ? & _).
  exists ss'; auto.
Qed.

Lemma ticks_line cfg n : forall st ss si sd j l st',
  seeds st = Some ss -> nth_error ss si = Some sd -> nth_error (lines sd) j = Some l ->
  ticks sin cos PI isVisible cfg n st = Ok tt st' ->
  exists ss' sd' l', seeds st' = Some ss' /\ nth_error ss' si = Some sd' /\
    nth_error (lines sd') j = Some l' /\
    (active l' = true -> active l = true /\ steps l' = steps l + n) /\
    (active l = false -> l' = l).
Proof.
  induction n as [|n IH]; intros st ss si sd j l st' Hs Hsd Hl H.
  { simpl in H; injection H as <-.
    exists ss, sd, l; repeat split; auto; lia. }
  simpl in H; apply bind_inv in H as ([] & st1 & H1 & H2).
  destruct (model_grow_shape cfg st ss st1 Hs H1) as (ss1 & Hs1 & _ & Hsd1 & _).
  destruct (Hsd1 si sd Hsd) as (sd1 & Hsd1' & _ & _ & Hold & _).
  destruct (Hold j l Hl) as (l1 & Hl1 & Hact & Hinact).
  destruct (IH st1 ss1 si sd1 j l1 st' Hs1 Hsd1' Hl1 H2)
    as (ss' & sd' & l' & Hs' & Hsd' & Hl' & Ha' & Hi').
  exists ss', sd', l'; split; [exact Hs'|split; [exact Hsd'|split; [exact Hl'|split]]].
  - intros Ha; destruct (active l) eqn:E.
    + destruct (Hact eq_refl) as [Hs2 _]; destruct (Ha' Ha) as [_ Hs3]; split; [reflexivity|lia].
    + destruct (Ha' Ha) as [Ha1 _]; rewrite (Hinact eq_refl) in Ha1; congruence.
  - intros Ha; pose proof (Hinact Ha) as E; subst l1; apply Hi'; exact Ha.
Qed.

Lemma grow_line_step cfg st ss si sd j l st' :
  seeds st = Some ss -> nth_error ss si = Some sd -> nth_error (lines sd) j = Some l ->
  model_grow sin cos PI isVisible cfg st = Ok tt st' ->
  exists ss' sd' l', seeds st' = Some ss' /\ nth_error ss' si = Some sd' /\
    nth_error (lines sd') j = Some l' /\
    (active l = true -> steps l' = S (steps l)) /\ (active l = false -> l' = l).
Proof.
  intros Hs Hsd Hl H.
  destruct (model_grow_shape cfg st ss st' Hs H) as (ss' & Hs' & _ & Hall & _).
  destruct (Hall si sd Hsd) as (sd' & Hsd' & _ & _ & Hold & _).
  destruct (Hold j l Hl) as (l' & Hl' & Ha & Hi).
  exists ss', sd', l'; repeat split; try assumption.
  intros E; exact (proj1 (Ha E)).
Qed.

Lemma ticks_active_steps cfg n : forall st si j l st',
  lookup_line (seeds st) si j = Some l ->
  active_during sin cos PI isVisible cfg n st si j ->
  ticks sin cos PI isVisible cfg n st = Ok tt st' ->
  exists l', lookup_line (seeds st') si j = Some l' /\ steps l' = (steps l + n)%nat.
Proof.
  induction n as [|n IH]; intros st si j l st' Hl Hd H.
  - simpl in H; injection H as <-; exists l; split; [exact Hl|lia].
  - simpl in H; apply bind_inv in H as ([] & st1 & H1 & H2).
    destruct Hd as ((l0 & Hl0 & Ha0) & Hd).
    rewrite Hl in Hl0; injection Hl0 as <-.
    unfold lookup_line, lookup_seed in Hl.
    destruct (seeds st) as [ss|] eqn:Hs; [|discriminate].
    destruct (nth_error ss si) as [sd|] eqn:Hsd; [|discriminate].
    destruct (grow_line_step cfg st ss si sd j l st1 Hs Hsd Hl H1)
      as (ss1 & sd1 & l1 & Hs1 & Hsd1 & Hl1 & Hst & _).
    assert (Hlk : lookup_line (seeds st1) si j = Some l1)
      by (unfold lookup_line, lookup_seed; rewrite Hs1, Hsd1; exact Hl1).
    destruct (IH st1 si j l1 st' Hlk (Hd st1 H1) H2) as (l' & Hl' & Hst').
    exists l'; split; [exact Hl'|rewrite Hst', (Hst Ha0); lia].
Qed.

(** C8: a line starts with one step (the [grow()] in [buildLine]); over
    [n] calls of [model.grow()] a line that is still active at the end was
    active at the start of each of them and has gained exactly [n] steps,
    and a line that was inactive at the start is unchanged; in one call a
    line active at its start gains exactly one step, also when it expires
    or is clipped in it; and a line active at the start of each of [n]
    calls has gained exactly [n] steps after them.  So a line that is
    active at the start of [k] consecutive ticks has [1 + k] steps when
    counted from its creation, not [k]. *)
Theorem line_steps cfg n :
  (forall p a par st c st', buildLine sin cos cfg p a par st = Ok c st' -> steps c = 1) /\
  (forall st ss si sd j l st',
     seeds st = Some ss -> nth_error ss si = Some sd -> nth_error (lines sd) j = Some l ->
     ticks sin cos PI isVisible cfg n st = Ok tt st' ->
     exists ss' sd' l', seeds st' = Some ss' /\ nth_error ss' si = Some sd' /\
       nth_error (lines sd') j = Some l' /\
       (active l' = true -> active l = true /\ steps l' = steps l + n) /\
       (active l = false -> l' = l)) /\
  (forall st ss si sd j l st',
     seeds st = Some ss -> nth_error ss si = Some sd -> nth_error (lines sd) j = Some l ->
     model_grow sin cos PI isVisible cfg st = Ok tt st' ->
     exists ss' sd' l', seeds st' = Some ss' /\ nth_error ss' si = Some sd' /\
       nth_error (lines sd') j = Some l' /\
       (active l = true -> steps l' = S (steps l)) /\ (active l = false -> l' = l)) /\
  (forall st si j l st',
     lookup_line (seeds st) si j = Some l ->
     active_during sin cos PI isVisible cfg n st si j ->
     ticks sin cos PI isVisible cfg n st = Ok tt st' ->
     exists l', lookup_line (seeds st') si j = Some l' /\ steps l' = steps l + n).
Proof.
  split; [|split; [exact (ticks_line cfg n)|split; [exact (grow_line_step cfg)|exact (ticks_active_steps cfg n)]]].
  intros p a par st c st' H; apply buildLine_shape in H; tauto.
Qed.

End ModelProofs.

Section GenerateProofs.

Variables (sin cos : Q -> Q) (PI canvas_width canvas_height : Q).

Lemma rnd_shape a b st r st' :
  rnd a b st = Ok r st' ->
  seeds st' = seeds st /\ activeLineCount st' = activeLineCount st.
Proof. rewrite rnd_eq; intros H; injection H as _ <-; split; reflexivity. Qed.

Lemma buildSeed_shape cfg st sd st' :
  buildSeed sin cos PI canvas_width canvas_height cfg st = Ok sd st' ->
  seeds st' = seeds st /\ activeLineCount st' = (activeLineCount st + 1)%Z /\
  count_active (lines sd) = 1.
Proof.
  unfold buildSeed; intros H.
  apply bind_inv in H as (a & st1 & H1 & H); apply rnd_shape in H1 as [Hs1 Hc1].
  apply bind_inv in H as (px & st2 & H2 & H); apply rnd_shape in H2 as [Hs2 Hc2].
  apply bind_inv in H as (py & st3 & H3 & H); apply rnd_shape in H3 as [Hs3 Hc3].
  apply bind_inv in H as (c & st4 & H4 & H); apply buildLine_shape in H4.
  destruct H4 as (Hs4 & Hc4 & _ & _ & _ & _ & Hac & _).
  injection H as <- <-; unfold count_active; simpl; rewrite Hac.
  split; [congruence|split; [lia|reflexivity]].
Qed.

Lemma repeatM_buildSeed cfg n : forall st ss st',
  repeatM n (buildSeed sin cos PI canvas_width canvas_height cfg) st = Ok ss st' ->
  seeds st' = seeds st /\
  activeLineCount st' = (activeLineCount st + Z.of_nat (count_forest ss))%Z.
Proof.
  induction n as [|n IH]; intros st ss st' H; simpl in H.
  - injection H as <- <-; split; [reflexivity|simpl; lia].
  - apply bind_inv in H as (sd & st1 & H1 & H); apply buildSeed_shape in H1 as (Hs1 & Hc1 & Ha1).
    apply bind_inv in H as (r & st2 & H2 & H); apply IH in H2 as [Hs2 Hc2].
    injection H as <- <-; unfold count_forest in *; simpl; rewrite Ha1.
    split; [congruence|lia].
Qed.

Lemma generate_shape cfg st st' :
  generate sin cos PI canvas_width canvas_height cfg st = Ok tt st' ->
  exists ss, seeds st' = Some ss /\
    activeLineCount st' = (activeLineCount st + Z.of_nat (count_forest ss))%Z.
Proof.
  unfold generate; destruct (Array_length (seedCount cfg)) as [n|]; [|discriminate].
  intros H; apply bind_inv in H as (ss & st1 & H1 & H); apply repeatM_buildSeed in H1.
  injection H as <-; exists ss; split; [reflexivity|exact (proj2 H1)].
Qed.

(** C9: [model.generate()] with [seedCount = 0] succeeds: the forest is
    empty and the counter is left as it was, so [isActive()] is false on a
    fresh model; with a negative [seedCount], [Array(seedCount)] throws a
    [RangeError] and [generate()] fails. *)
Theorem generate_degenerate cfg st :
  ((seedCount cfg == 0)%Q ->
   generate sin cos PI canvas_width canvas_height cfg st = Ok tt (set_seeds st (Some [])) /\
   isActive (set_seeds st (Some [])) = isActive st /\
   (activeLineCount st = 0%Z -> isActive (set_seeds st (Some [])) = false)) /\
  ((seedCount cfg < 0)%Q ->
   generate sin cos PI canvas_width canvas_height cfg st = Err RangeError).
Proof.
  split.
  - intros H; unfold generate, Array_length.
    rewrite (Qred_complete _ _ H); simpl.
    split; [reflexivity|split; [reflexivity|]].
    intros Hc; unfold isActive; simpl; rewrite Hc; reflexivity.
  - intros H; unfold generate, Array_length.
    assert (Hn : (Qnum (Qred (seedCount cfg)) < 0)%Z).
    { assert (H' : (Qred (seedCount cfg) < 0)%Q) by (rewrite Qred_correct; exact H).
      unfold Qlt in H'; simpl in H'; lia. }
    destruct (Z.leb_spec 0 (Qnum (Qred (seedCount cfg)))) as [Hl|_]; [lia|].
    rewrite andb_false_r; reflexivity.
Qed.

End GenerateProofs.

Lemma count_active_pos (ls : list line) :
  (0 < count_active ls)%nat <-> exists l, In l ls /\ active l = true.
Proof.
  unfold count_active; split.
  - intros H; destruct (filter active ls) as [|l r] eqn:E; simpl in H; [lia|].
    exists l; apply filter_In; rewrite E; left; reflexivity.
  - intros (l & Hl & Ha).
    assert (Hin : In l (filter active ls)) by (apply filter_In; auto).
    destruct (filter active ls); simpl in *; [contradiction|lia].
Qed.

Lemma count_forest_pos (ss : list seed) :
  (0 < count_forest ss)%nat <->
  exists sd l, In sd ss /\ In l (lines sd) /\ active l = true.
Proof.
  unfold count_forest; induction ss as [|sd ss IH]; simpl.
  - split; [lia|intros (sd & l & [] & _)].
  - split.
    + intros H; destruct (Nat.eq_dec (count_active (lines sd)) 0) as [E|E].
      * destruct (proj1 IH ltac:(lia)) as (sd' & l & H1 & H2 & H3); exists sd', l; auto.
      * destruct (proj1 (count_active_pos (lines sd)) ltac:(lia)) as (l & H1 & H2).
        exists sd, l; auto.
    + intros (sd' & l & [<-|H1] & H2 & H3).
      * assert (0 < count_active (lines sd))%nat by (apply count_active_pos; eauto); lia.
      * assert (0 < list_sum (map (fun sd => count_active (lines sd)) ss))%nat
          by (apply IH; eauto); lia.
Qed.

Section InvariantProofs.

Variables (sin cos : Q -> Q) (PI canvas_width canvas_height : Q).
Variable isVisible : Q -> Q -> bool.

(** C10: in every state of a model reached from a fresh one by one
    [generate()] and then [grow()] calls, [activeLineCount] is the number of
    active lines of the forest, so [isActive()] holds iff some line is
    active. *)
Theorem activeLineCount_invariant cfg st :
  reachable sin cos PI canvas_width canvas_height isVisible cfg st ->
  activeLineCount st = Z.of_nat (forest_active st) /\
  (isActive st = true <->
   exists ss sd l, seeds st = Some ss /\ In sd ss /\ In l (lines sd) /\ active l = true).
Proof.
  intros R.
  assert (Hc : activeLineCount st = Z.of_nat (forest_active st)).
  { induction R as [st Hs Hc|st st' R IH Hs H|st st' R IH H]; unfold forest_active in *.
    - rewrite Hs, Hc; reflexivity.
    - rewrite Hs in IH; apply generate_shape in H as (ss & Hs' & Hc').
      rewrite Hs'; lia.
    - destruct (seeds st) as [ss|] eqn:Hs.
      + destruct (model_grow_shape _ _ _ _ cfg st ss st' Hs H) as (ss' & Hs' & _ & _ & Hcnt).
        rewrite Hs'; lia.
      + unfold model_grow in H; rewrite get_bind, Hs in H; discriminate. }
  split; [exact Hc|].
  unfold isActive; rewrite Z.ltb_lt, Hc; unfold forest_active.
  destruct (seeds st) as [ss|].
  - split; intros H.
    + destruct (proj1 (count_forest_pos ss) ltac:(lia)) as (sd & l & H1 & H2 & H3).
      exists ss, sd, l; auto.
    + destruct H as (ss' & sd & l & E & H1 & H2 & H3); injection E as <-.
      assert (0 < count_forest ss)%nat by (apply count_forest_pos; eauto); lia.
  - split; [simpl; lia|intros (ss & _ & _ & [=] & _)].
Qed.

End InvariantProofs.

(** ** The draws of a run *)

Lemma map_seq_shift {A} (f : nat -> A) k n m :
  map f (seq (k + n) m) = map (fun i => f (k + i)) (seq n m).
Proof.
  revert n; induction m as [|m IH]; intros n; simpl; [reflexivity|].
  f_equal; rewrite <- Nat.add_succ_r; apply IH.
Qed.

Lemma stream_app s n m :
  stream s (n + m) = stream s n ++ stream (s + Z.of_nat n * mulberry_inc)%Z m.
Proof.
  unfold stream; rewrite seq_app, map_app; f_equal.
  replace (seq (0 + n) m) with (seq (n + 0) m) by (f_equal; lia).
  rewrite (map_seq_shift _ n 0 m); apply map_ext; intros i; do 2 f_equal; lia.
Qed.

Lemma df_bind {A B} (m : M A) (k : A -> M B) :
  draws_from m -> (forall a, draws_from (k a)) -> draws_from (bind m k).
Proof.
  intros Hm Hk st b st' H; apply bind_inv in H as (a & st1 & H1 & H2).
  destruct (Hm _ _ _ H1) as (n1 & Hp1 & Hd1); destruct (Hk a _ _ _ H2) as (n2 & Hp2 & Hd2).
  exists (n1 + n2); split; [rewrite Hp2, Hp1; lia|].
  rewrite Hd2, Hd1, <- app_assoc, stream_app, Hp1; reflexivity.
Qed.

Lemma df_const {A} (m : M A) :
  (forall st a st', m st = Ok a st' -> prng st' = prng st /\ draws st' = draws st) ->
  draws_from m.
Proof.
  intros H st a st' E; destruct (H _ _ _ E) as [Hp Hd]; exists 0.
  rewrite Hp, Hd, app_nil_r; split; [lia|reflexivity].
Qed.

Lemma df_ret {A} (a : A) : draws_from (ret a).
Proof. apply df_const; intros st b st' H; injection H as _ <-; auto. Qed.

Lemma df_throw {A} e : draws_from (@throw A e).
Proof. intros st a st' H; discriminate. Qed.

Lemma df_get : draws_from get.
Proof. apply df_const; intros st b st' H; injection H as _ <-; auto. Qed.

Lemma df_rnd a b : draws_from (rnd a b).
Proof.
  intros st r st' H; rewrite rnd_eq in H; injection H as _ <-; exists 1.
  unfold set_prng; cbn [prng draws]; split.
  - change (snd (mulberry32 (prng st))) with (prng st + mulberry_inc)%Z; lia.
  - unfold stream; cbn [seq map]; change (Z.of_nat 0) with 0%Z.
    rewrite Z.mul_0_l, Z.add_0_r; reflexivity.
Qed.

Lemma df_get_seed si : draws_from (get_seed si).
Proof.
  apply df_const; intros st a st' H; unfold get_seed in H.
  destruct (lookup_seed _ _); [injection H as _ <-; auto|discriminate].
Qed.

Lemma df_get_line si li : draws_from (get_line si li).
Proof.
  apply df_const; intros st a st' H; unfold get_line in H.
  destruct (lookup_line _ _ _); [injection H as _ <-; auto|discriminate].
Qed.

Lemma df_put_seed si sd : draws_from (put_seed si sd).
Proof.
  apply df_const; intros st a st' H; unfold put_seed in H.
  destruct (seeds st); [injection H as _ <-; auto|discriminate].
Qed.

Lemma df_put_seeds ss : draws_from (put_seeds ss).
Proof. apply df_const; intros st a st' H; injection H as _ <-; auto. Qed.

Lemma df_incr : draws_from incr_count.
Proof. apply df_const; intros st a st' H; injection H as _ <-; auto. Qed.

Lemma df_decr : draws_from decr_count.
Proof. apply df_const; intros st a st' H; injection H as _ <-; auto. Qed.

Lemma df_if {A} (b : bool) (m1 m2 : M A) :
  draws_from m1 -> draws_from m2 -> draws_from (if b then m1 else m2).
Proof. destruct b; auto. Qed.

Lemma df_forM_ {A} (xs : list A) f :
  (forall a, draws_from (f a)) -> draws_from (forM_ xs f).
Proof.
  intros Hf; induction xs as [|a xs IH]; simpl; [apply df_ret|].
  apply df_bind; [apply Hf|intros _; exact IH].
Qed.

Lemma df_repeatM {A} n (m : M A) : draws_from m -> draws_from (repeatM n m).
Proof.
  intros Hm; induction n as [|n IH]; simpl; [apply df_ret|].
  apply df_bind; [exact Hm|intros a; apply df_bind; [exact IH|intros r; apply df_ret]].
Qed.

Ltac draws_step :=
  first
  [ apply df_bind; intros
  | apply df_ret | apply df_throw | apply df_get | apply df_rnd
  | apply df_get_seed | apply df_get_line | apply df_put_seed | apply df_put_seeds
  | apply df_incr | apply df_decr
  | apply df_if
  | match goal with |- draws_from (match ?x with _ => _ end) => destruct x end ].

Section DrawsProofs.

Variables (sin cos : Q -> Q) (PI canvas_width canvas_height : Q).
Variable isVisible : Q -> Q -> bool.

Lemma df_set_line si li l : draws_from (set_line si li l).
Proof. unfold set_line; repeat draws_step. Qed.

Lemma df_push_line si l : draws_from (push_line si l).
Proof. unfold push_line; repeat draws_step. Qed.

Lemma df_line_grow cfg l : draws_from (line_grow sin cos cfg l).
Proof. unfold line_grow, rnd0; cbv zeta; repeat draws_step. Qed.

Lemma df_buildLine cfg p a par : draws_from (buildLine sin cos cfg p a par).
Proof. unfold buildLine, rnd0; cbv zeta; repeat draws_step; apply df_line_grow. Qed.

Lemma df_process_line cfg si li : draws_from (process_line sin cos PI isVisible cfg si li).
Proof.
  unfold process_line, rnd0; cbv zeta;
    repeat first [draws_step | apply df_set_line | apply df_push_line
                 | apply df_line_grow | apply df_buildLine].
Qed.

Lemma df_model_grow cfg : draws_from (model_grow sin cos PI isVisible cfg).
Proof.
  unfold model_grow; repeat draws_step.
  apply df_forM_; intros si; unfold seed_grow; draws_step; [apply df_get_seed|].
  apply df_forM_; intros li; apply df_process_line.
Qed.

Lemma df_ticks cfg n : draws_from (ticks sin cos PI isVisible cfg n).
Proof.
  induction n as [|n IH]; simpl; [apply df_ret|].
  apply df_bind; [apply df_model_grow|intros _; exact IH].
Qed.

Lemma df_generate cfg : draws_from (generate sin cos PI canvas_width canvas_height cfg).
Proof.
  unfold generate; repeat draws_step.
  apply df_repeatM; unfold buildSeed;
    repeat first [draws_step | apply df_buildLine].
Qed.

Lemma df_buildRandomConfig : draws_from buildRandomConfig.
Proof. unfold buildRandomConfig, rnd0, rnd1; cbv zeta; repeat draws_step. Qed.

Lemma df_run_body n :
  draws_from (cfg <- render_init sin cos PI canvas_width canvas_height ;;
              ticks sin cos PI isVisible cfg n ;;; ret cfg).
Proof.
  apply df_bind; [|intros cfg; apply df_bind; [apply df_ticks|intros _; apply df_ret]].
  unfold render_init; apply df_bind; [apply df_buildRandomConfig|intros cfg].
  apply df_bind; [apply df_generate|intros _; apply df_ret].
Qed.

End DrawsProofs.

Lemma run_unfold sin cos PI canvas_width canvas_height isVisible seed0 n :
  run sin cos PI canvas_width canvas_height isVisible seed0 n =
  (cfg <- render_init sin cos PI canvas_width canvas_height ;;
   ticks sin cos PI isVisible cfg n ;;; ret cfg) (initial_state seed0).
Proof. reflexivity. Qed.

(** C1: a run is a function of the seed (and of the environment: canvas,
    [Math.sin], [Math.cos], [PI]), so two runs of [n] ticks from the same
    seed have the same result: the same configuration, draws and forest.
    Moreover the draws of a run are the first outputs of [mulberry32] from
    the seed, in order, and the generator's state has advanced once per
    draw. *)
Theorem run_deterministic sin cos PI canvas_width canvas_height isVisible seed0 n :
  (forall r1 r2,
     run sin cos PI canvas_width canvas_height isVisible seed0 n = r1 ->
     run sin cos PI canvas_width canvas_height isVisible seed0 n = r2 -> r1 = r2) /\
  (forall cfg st,
     run sin cos PI canvas_width canvas_height isVisible seed0 n = Ok cfg st ->
     draws st = stream seed0 (length (draws st)) /\
     prng st = (seed0 + Z.of_nat (length (draws st)) * mulberry_inc)%Z).
Proof.
  split; [intros r1 r2 <- <-; reflexivity|].
  intros cfg st H; rewrite run_unfold in H.
  destruct (df_run_body sin cos PI canvas_width canvas_height isVisible n
              (initial_state seed0) cfg st H) as (k & Hp & Hd).
  unfold initial_state in Hp, Hd; cbn [prng draws app] in Hp, Hd.
  rewrite Hd; unfold stream; rewrite length_map, length_seq.
  split; [reflexivity|exact Hp].
Qed.

(** ** Witnesses and counterexamples *)

Ltac eval_lhs :=
  match goal with |- ?a = _ =>
    let v := eval vm_compute in a in
    transitivity v; [vm_compute; reflexivity|reflexivity]
  end.

(** C1: the draws of [render.init()] from seed 1, no tick. *)
Lemma run_deterministic_witness :
  exists cfg st, SampleEnv.run 1 0 = Ok cfg st /\
    draws st = stream 1 (length (draws st)).
Proof.
  do 2 eexists; split; [unfold SampleEnv.run; eval_lhs|].
  refine (proj1 (proj2 (run_deterministic SampleEnv.sin SampleEnv.cos SampleEnv.PI
                  SampleEnv.canvas_width SampleEnv.canvas_height SampleEnv.isVisible 1 0) _ _ _)).
  unfold SampleEnv.run; vm_compute; reflexivity.
Defined.

(** C2: the per-line body on the one-line forest. *)
Lemma seed_grow_line_step_witness :
  seed_grow SampleEnv.sin SampleEnv.cos SampleEnv.PI SampleEnv.isVisible example_config 0
    sample_state =
  forM_ (active_indices [segment 400 300 400 301])
    (process_line SampleEnv.sin SampleEnv.cos SampleEnv.PI SampleEnv.isVisible example_config 0)
    sample_state.
Proof.
  destruct (line_grow SampleEnv.sin SampleEnv.cos example_config (segment 400 300 400 301)
              sample_state) as [l1 stg|e] eqn:Hg; [|vm_compute in Hg; discriminate].
  exact (proj1 (seed_grow_line_step SampleEnv.sin SampleEnv.cos SampleEnv.PI SampleEnv.isVisible
                  example_config sample_state _ 0 _ 0 _ l1 stg eq_refl eq_refl eq_refl Hg)).
Defined.

(** C3: one tick with [pBifurcation = 1] on the one-line forest. *)
Lemma model_grow_snapshot_witness :
  exists st', model_grow SampleEnv.sin SampleEnv.cos SampleEnv.PI SampleEnv.isVisible
                split_config sample_state = Ok tt st' /\
  exists ss', seeds st' = Some ss' /\ length ss' = length [mkSeed 0 [segment 400 300 400 301]] /\
    forall si sd, nth_error [mkSeed 0 [segment 400 300 400 301]] si = Some sd ->
      exists sd', nth_error ss' si = Some sd' /\
        seed_angle sd' = seed_angle sd /\ tick_rel (lines sd) (lines sd').
Proof.
  destruct (model_grow SampleEnv.sin SampleEnv.cos SampleEnv.PI SampleEnv.isVisible
              split_config sample_state) as [[] st'|e] eqn:H; [|vm_compute in H; discriminate].
  exists st'; split; [reflexivity|].
  exact (model_grow_snapshot SampleEnv.sin SampleEnv.cos SampleEnv.PI SampleEnv.isVisible
           split_config sample_state _ st' eq_refl H).
Defined.

(** C3: the child pushed in that tick has been grown (one step) and
    bifurcation-tested (its split flag is set) in the same tick. *)
Lemma model_grow_snapshot_counterexample :
  exists st' sd l c,
    model_grow SampleEnv.sin SampleEnv.cos SampleEnv.PI SampleEnv.isVisible
      split_config sample_state = Ok tt st' /\
    seeds st' = Some [sd] /\ lines sd = [l; c] /\
    parent c = Some 0 /\ steps c = 1 /\ split c = true.
Proof.
  do 4 eexists; split; [eval_lhs|split; [eval_lhs|split; [eval_lhs|]]].
  split; [|split]; vm_compute; reflexivity.
Qed.

(** C8: one tick on the one-line forest. *)
Lemma line_steps_witness :
  (exists st', ticks SampleEnv.sin SampleEnv.cos SampleEnv.PI SampleEnv.isVisible
                example_config 1 sample_state = Ok tt st' /\
   exists ss' sd' l', seeds st' = Some ss' /\ nth_error ss' 0 = Some sd' /\
     nth_error (lines sd') 0 = Some l' /\
     (active l' = true -> active (segment 400 300 400 301) = true /\
                          steps l' = steps (segment 400 300 400 301) + 1) /\
     (active (segment 400 300 400 301) = false -> l' = segment 400 300 400 301)) /\
  (active_during SampleEnv.sin SampleEnv.cos SampleEnv.PI SampleEnv.isVisible
     example_config 1 sample_state 0 0 /\
   exists st', ticks SampleEnv.sin SampleEnv.cos SampleEnv.PI SampleEnv.isVisible
                 example_config 1 sample_state = Ok tt st' /\
   exists l', lookup_line (seeds st') 0 0 = Some l' /\
     steps l' = steps (segment 400 300 400 301) + 1).
Proof.
  destruct (ticks SampleEnv.sin SampleEnv.cos SampleEnv.PI SampleEnv.isVisible
              example_config 1 sample_state) as [[] st'|e] eqn:H; [|vm_compute in H; discriminate].
  assert (Hd : active_during SampleEnv.sin SampleEnv.cos SampleEnv.PI SampleEnv.isVisible
                 example_config 1 sample_state 0 0).
  { split; [exists (segment 400 300 400 301); split; reflexivity|intros; exact I]. }
  split.
  - exists st'; split; [reflexivity|].
    exact (proj1 (proj2 (line_steps SampleEnv.sin SampleEnv.cos SampleEnv.PI SampleEnv.isVisible
                    example_config 1)) sample_state _ 0 _ 0 _ st' eq_refl eq_refl eq_refl H).
  - split; [exact Hd|exists st'; split; [reflexivity|]].
    exact (proj2 (proj2 (proj2 (line_steps SampleEnv.sin SampleEnv.cos SampleEnv.PI
                    SampleEnv.isVisible example_config 1))) sample_state 0 0 _ st' eq_refl Hd H).
Defined.

(** C8: from seed 1, the root is active during the first tick and has two
    steps after it, not one. *)
Lemma line_steps_counterexample :
  exists st1 st2 sd l,
    generate SampleEnv.sin SampleEnv.cos SampleEnv.PI SampleEnv.canvas_width
      SampleEnv.canvas_height example_config (initial_state 1) = Ok tt st1 /\
    ticks SampleEnv.sin SampleEnv.cos SampleEnv.PI SampleEnv.isVisible
      example_config 1 st1 = Ok tt st2 /\
    seeds st2 = Some [sd] /\ lines sd = [l] /\ active l = true /\ steps l = 2.
Proof.
  do 4 eexists; split; [eval_lhs|split; [eval_lhs|split; [eval_lhs|split; [eval_lhs|]]]].
  split; vm_compute; reflexivity.
Qed.

(** C9: [seedCount = 0] on a fresh model. *)
Lemma generate_degenerate_witness :
  generate SampleEnv.sin SampleEnv.cos SampleEnv.PI SampleEnv.canvas_width SampleEnv.canvas_height
    (mkConfig 0 (1#20) 50 180 60 50 (1#2) 50 (1#2000) (1#2) false true) (initial_state 1) =
    Ok tt (set_seeds (initial_state 1) (Some [])) /\
  isActive (set_seeds (initial_state 1) (Some [])) = false.
Proof.
  destruct (proj1 (generate_degenerate SampleEnv.sin SampleEnv.cos SampleEnv.PI
                     SampleEnv.canvas_width SampleEnv.canvas_height
                     (mkConfig 0 (1#20) 50 180 60 50 (1#2) 50 (1#2000) (1#2) false true)
                     (initial_state 1)) ltac:(vm_compute; reflexivity)) as (H1 & _ & H3).
  split; [exact H1|exact (H3 eq_refl)].
Defined.

(** C9: [seedCount = -1]: [Array(-1)] throws. *)
Lemma generate_degenerate_counterexample :
  (seedCount (mkConfig (-1) (1#20) 50 180 60 50 (1#2) 50 (1#2000) (1#2) false true) <= 0)%Q /\
  generate SampleEnv.sin SampleEnv.cos SampleEnv.PI SampleEnv.canvas_width SampleEnv.canvas_height
    (mkConfig (-1) (1#20) 50 180 60 50 (1#2) 50 (1#2000) (1#2) false true) (initial_state 1) =
    Err RangeError.
Proof. split; [unfold Qle; simpl; lia|vm_compute; reflexivity]. Qed.

(** C10: the model right after [generate()] from seed 1. *)
Lemma activeLineCount_invariant_witness :
  exists st1, generate SampleEnv.sin SampleEnv.cos SampleEnv.PI SampleEnv.canvas_width
                SampleEnv.canvas_height example_config (initial_state 1) = Ok tt st1 /\
    activeLineCount st1 = Z.of_nat (forest_active st1).
Proof.
  destruct (generate SampleEnv.sin SampleEnv.cos SampleEnv.PI SampleEnv.canvas_width
              SampleEnv.canvas_height example_config (initial_state 1)) as [[] st1|e] eqn:H;
    [|vm_compute in H; discriminate].
  exists st1; split; [reflexivity|].
  exact (proj1 (activeLineCount_invariant SampleEnv.sin SampleEnv.cos SampleEnv.PI
                  SampleEnv.canvas_width SampleEnv.canvas_height SampleEnv.isVisible
                  example_config st1
                  (reach_generate _ _ _ _ _ _ example_config (initial_state 1) st1
                     (reach_fresh _ _ _ _ _ _ example_config (initial_state 1) eq_refl eq_refl)
                     eq_refl H))).
Defined.

(** C10: a second [generate()] does not reset the counter: two, with one
    active line. *)
Lemma activeLineCount_invariant_counterexample :
  exists st1 st2,
    generate SampleEnv.sin SampleEnv.cos SampleEnv.PI SampleEnv.canvas_width
      SampleEnv.canvas_height example_config (initial_state 1) = Ok tt st1 /\
    generate SampleEnv.sin SampleEnv.cos SampleEnv.PI SampleEnv.canvas_width
      SampleEnv.canvas_height example_config st1 = Ok tt st2 /\
    activeLineCount st2 = 2%Z /\ forest_active st2 = 1.
Proof.
  do 2 eexists; split; [eval_lhs|split; [eval_lhs|]].
  split; vm_compute; reflexivity.
Qed.


Section ShapeProofs.

Variables (sin cos : Q -> Q) (PI : Q) (isVisible : Q -> Q -> bool).

Lemma Qlt_bool_morph a a' b b' :
  (a == a')%Q -> (b == b')%Q -> Qlt_bool a b = Qlt_bool a' b'.
Proof.
  intros Ha Hb; apply eq_true_iff_eq; rewrite !Qlt_bool_iff, Ha, Hb; reflexivity.
Qed.

Lemma inject_Z_succ_nat g :
  (inject_Z (Z.of_nat (S g)) == inject_Z (Z.of_nat g) + 1)%Q.
Proof. rewrite Nat2Z.inj_succ; unfold Z.succ; rewrite inject_Z_plus; reflexivity. Qed.

Lemma tip_at_grow l l' g :
  tip_at sin cos l g -> p0 l' = p0 l -> angle l' = angle l ->
  p1 l' = mkPoint (x (p1 l) + sin (angle l) * growthRate)
                  (y (p1 l) + cos (angle l) * growthRate)%Q ->
  tip_at sin cos l' (S g).
Proof.
  intros [Hx Hy] H0 Ha H1; unfold tip_at; rewrite H0, Ha, H1; cbn [x y].
  rewrite inject_Z_succ_nat, Hx, Hy; split; ring.
Qed.

Lemma tip_at_clip l g : tip_at sin cos l (S g) -> tip_at sin cos (clip sin cos l) g.
Proof.
  unfold tip_at, clip, with_p1; cbn [x y p0 p1 angle]; rewrite inject_Z_succ_nat; intros [Hx Hy].
  rewrite Hx, Hy; split; ring.
Qed.

Lemma line_grow_root_expired cfg l st l1 st' :
  line_grow sin cos cfg l st = Ok l1 st' -> generation l = O -> expired l1 = expired l.
Proof.
  unfold line_grow, bind, rnd0, ret; rewrite !rnd_eq; intros H Hg.
  match type of H with Ok (if ?c then _ else _) _ = _ => destruct c eqn:E end;
    injection H as <- _; [|reflexivity].
  exfalso; apply Qlt_bool_iff in E; revert E; simpl generation; rewrite Hg.
  match goal with |- context [fst (mulberry32 ?s)] =>
    pose proof (mulberry32_range s); generalize dependent (fst (mulberry32 s)) end.
  intros u Hu; simpl.
  intros E; setoid_replace (inject_Z 0 * expiryThreshold cfg)%Q with 0%Q in E by ring; lra.
Qed.

Lemma buildLine_tip cfg p a par st c st' :
  buildLine sin cos cfg p a par st = Ok c st' ->
  p0 c = p /\ tip_at sin cos c 1 /\ (par = None -> expired c = false).
Proof.
  unfold buildLine; intros H.
  apply bind_inv in H as (r & st1 & H1 & H).
  apply bind_inv in H as ([] & st2 & H2 & H).
  pose proof (line_grow_shape _ _ _ _ _ _ _ H) as (_ & _ & Hp0 & Hp1 & Ha & _).
  split; [exact Hp0|split].
  - apply (tip_at_grow (mkLine p p a (match par with Some pl => S (generation (snd pl)) | None => O end)
                          (option_map fst par) true false false O r)); auto.
    unfold tip_at; simpl; split; ring.
  - intros ->; rewrite (line_grow_root_expired _ _ _ _ _ H eq_refl); reflexivity.
Qed.

Lemma on_parent_move lp lp' l :
  on_parent sin cos lp l -> p0 lp' = p0 lp -> angle lp' = angle lp ->
  (forall g, tip_at sin cos lp g -> exists g', g <= g' /\ tip_at sin cos lp' g') ->
  on_parent sin cos lp' l.
Proof.
  intros (k & g & Hk & Ht & Hx & Hy) H0 Ha Hd.
  destruct (Hd g Ht) as (g' & Hg' & Ht').
  exists k, g'; rewrite H0, Ha; split; [lia|split; [exact Ht'|split; assumption]].
Qed.

Lemma on_parent_start lp l l' :
  on_parent sin cos lp l -> p0 l' = p0 l -> on_parent sin cos lp l'.
Proof. unfold on_parent; intros H ->; exact H. Qed.

(** Replacing a line of a [seed_ok] list by one with the same start,
    angle, generation and parent, whose tip has not moved backwards. *)
Lemma seed_ok_replace cur li l l' :
  seed_ok sin cos PI cur -> nth_error cur li = Some l ->
  p0 l' = p0 l -> angle l' = angle l -> generation l' = generation l ->
  parent l' = parent l -> line_ok sin cos l' ->
  (forall g, tip_at sin cos l g -> exists g', g <= g' /\ tip_at sin cos l' g') ->
  seed_ok sin cos PI (list_set cur li l').
Proof.
  intros Hok Hl H0 Ha Hgen Hpar Hl' Hd j c Hj.
  assert (Hlt : li < length cur) by (eapply nth_error_Some_lt; eauto).
  destruct (Nat.eq_dec j li) as [->|Hne].
  - rewrite nth_error_list_set_eq in Hj by exact Hlt; injection Hj as <-.
    split; [exact Hl'|].
    destruct (Hok li l Hl) as [_ Hp]; rewrite Hpar, Hgen.
    destruct (parent l) as [p|]; [|exact Hp].
    destruct Hp as (Hp & lp & Hlp & Hg & Hon & Hang); split; [exact Hp|].
    exists lp; split; [rewrite nth_error_list_set_ne by lia; exact Hlp|].
    split; [exact Hg|split; [exact (on_parent_start _ _ _ Hon H0)|rewrite Ha; exact Hang]].
  - rewrite nth_error_list_set_ne in Hj by lia.
    destruct (Hok j c Hj) as [Hc Hp]; split; [exact Hc|].
    destruct (parent c) as [p|]; [|exact Hp].
    destruct Hp as (Hp & lp & Hlp & Hg & Hon & Hang); split; [exact Hp|].
    destruct (Nat.eq_dec p li) as [->|Hne'].
    + rewrite Hl in Hlp; injection Hlp as <-.
      exists l'; split; [apply nth_error_list_set_eq; exact Hlt|].
      rewrite Hgen, Ha; split; [exact Hg|split; [exact (on_parent_move _ _ _ Hon H0 Ha Hd)|exact Hang]].
    + exists lp; split; [rewrite nth_error_list_set_ne by lia; exact Hlp|auto].
Qed.

(** Appending a child of a line of a [seed_ok] list. *)
Lemma seed_ok_push ls c p lp :
  seed_ok sin cos PI ls -> line_ok sin cos c -> parent c = Some p ->
  nth_error ls p = Some lp -> generation c = S (generation lp) ->
  on_parent sin cos lp c ->
  (angle c == angle lp + PI / 2 \/ angle c == angle lp - PI / 2)%Q ->
  seed_ok sin cos PI (ls ++ [c]).
Proof.
  intros Hok Hc Hpc Hlp Hg Hon Hang j l Hj.
  assert (Hplt : p < length ls) by (eapply nth_error_Some_lt; eauto).
  destruct (Nat.lt_ge_cases j (length ls)) as [Hlt|Hge].
  - rewrite nth_error_app1 in Hj by exact Hlt.
    destruct (Hok j l Hj) as [Hl Hp]; split; [exact Hl|].
    destruct (parent l) as [q|]; [|exact Hp].
    destruct Hp as (Hq & lq & Hlq & Hg' & Hon' & Hang'); split; [exact Hq|].
    exists lq; split; [rewrite nth_error_app1 by lia; exact Hlq|auto].
  - rewrite nth_error_app2 in Hj by exact Hge.
    destruct (j - length ls) as [|k] eqn:E; [|destruct k; discriminate].
    injection Hj as <-; split; [exact Hc|]; rewrite Hpc; split; [lia|].
    exists lp; split; [rewrite nth_error_app1 by exact Hplt; exact Hlp|auto].
Qed.

(** The split branch of the per-line body, with the call of [buildLine]
    that creates the child. *)
Lemma process_line_split cfg st ss si sd li l l1 stg st' :
  seeds st = Some ss -> nth_error ss si = Some sd -> nth_error (lines sd) li = Some l ->
  line_grow sin cos cfg l st = Ok l1 stg ->
  expired l1 = false ->
  checkForCollisions isVisible (si, li, l1)
    (fun fn s => forEachLineUntilTrue cfg (seeds (put_line stg ss si sd li l1)) fn s) = false ->
  split l1 = true ->
  process_line sin cos PI isVisible cfg si li st = Ok tt st' ->
  exists c u st2 st3,
    buildLine sin cos cfg (mkPoint (x (p1 l1)) (y (p1 l1)))
      (angle l1 + PI / 2 * (if Qlt_bool u (1/2) then 1 else -1))%Q
      (Some (li, with_split l1 false)) st2 = Ok c st3 /\
    seeds st' = Some (list_set ss si (mkSeed (seed_angle sd)
                       (list_set (lines sd) li (with_split l1 false) ++ [c]))).
Proof.
  intros Hs Hsd Hl Hg E C S' H.
  pose proof (line_grow_shape _ _ _ _ _ _ _ Hg) as (Hgs & _).
  assert (Hgs' : seeds stg = Some ss) by congruence.
  unfold process_line in H.
  rewrite (bind_ok _ _ _ _ _ (get_line_ok _ _ _ _ _ _ Hs Hsd Hl)) in H.
  rewrite (bind_ok _ _ _ _ _ Hg) in H.
  rewrite (bind_ok _ _ _ _ _ (set_line_ok _ _ _ _ _ _ Hgs' Hsd)) in H.
  fold (put_line stg ss si sd li l1) in H.
  rewrite E, get_bind, C, S' in H.
  rewrite (bind_ok _ _ _ _ _ (set_line_put _ _ _ _ _ _ _ Hgs' Hsd)) in H.
  unfold rnd0 at 1 in H; rewrite (bind_ok _ _ _ _ _ (rnd_eq _ _ _)) in H.
  cbv beta in H.
  match type of H with bind (buildLine ?a1 ?a2 ?a3 ?a4 ?a5 ?a6) _ ?st2 = _ =>
    destruct (buildLine_total a1 a2 a3 a4 a5 a6 st2) as (c & st3 & B) end.
  rewrite (bind_ok _ _ _ _ _ B) in H.
  pose proof (buildLine_shape _ _ _ _ _ _ _ _ _ B) as (Bs & _).
  rewrite (push_line_ok _ (list_set ss si (mkSeed (seed_angle sd)
             (list_set (lines sd) li (with_split l1 false))))
             si (mkSeed (seed_angle sd) (list_set (lines sd) li (with_split l1 false)))) in H;
    [| rewrite Bs; reflexivity | apply nth_error_list_set_eq; eapply nth_error_Some_lt; eauto].
  injection H as <-.
  exists c; do 3 eexists; split; [exact B|].
  simpl; rewrite list_set_list_set; reflexivity.
Qed.

(** The per-line body of [seed.grow()] on an active line keeps the seed
    [seed_ok]; it replaces the line and appends at most one line. *)
Lemma process_line_ok cfg st ss si a cur li l st' :
  seeds st = Some ss -> nth_error ss si = Some (mkSeed a cur) ->
  nth_error cur li = Some l -> active l = true -> seed_ok sin cos PI cur ->
  process_line sin cos PI isVisible cfg si li st = Ok tt st' ->
  exists l' extra,
    seeds st' = Some (list_set ss si (mkSeed a (list_set cur li l' ++ extra))) /\
    seed_ok sin cos PI (list_set cur li l' ++ extra) /\ length extra <= 1.
Proof.
  intros Hs Hsd Hl Hact Hok H.
  destruct (line_grow_total sin cos cfg l st) as (l1 & stg & Hg).
  destruct (process_line_cases sin cos PI isVisible cfg st ss si (mkSeed a cur) li l l1 stg
              Hs Hsd Hl Hg) as (C1 & C2 & C3 & C4); cbv zeta in C1, C2, C3, C4.
  pose proof (line_grow_shape _ _ _ _ _ _ _ Hg)
    as (_ & _ & Hp0 & Hp1 & Ha & Hgen & Hpar & Hact1 & Hst & _).
  destruct (Hok li l Hl) as [(Hst1 & Htip & Hroot) _].
  assert (Ht : tip_at sin cos l (steps l))
    by (destruct Htip as [Ht|[Hf _]]; [exact Ht|congruence]).
  assert (Hd : forall g, tip_at sin cos l g -> tip_at sin cos l1 (S g))
    by (intros g Htg; exact (tip_at_grow _ _ _ Htg Hp0 Ha Hp1)).
  assert (Ht1 : tip_at sin cos l1 (steps l1)) by (rewrite Hst; apply Hd; exact Ht).
  assert (Hlen : li < length cur) by (eapply nth_error_Some_lt; eauto).
  destruct (expired l1) eqn:E.
  { rewrite (C1 eq_refl) in H; injection H as <-.
    exists (with_active l1 false), []; rewrite app_nil_r; split; [reflexivity|split; [|simpl; lia]].
    apply (seed_ok_replace _ _ l); auto.
    - split; [simpl; lia|split; [left; exact Ht1|]].
      intros Hg0; simpl in Hg0 |- *; rewrite Hgen in Hg0.
      rewrite (line_grow_root_expired _ _ _ _ _ Hg Hg0), (Hroot Hg0) in E; discriminate.
    - intros g Htg; exists (S g); split; [lia|exact (Hd g Htg)]. }
  destruct (checkForCollisions _ _ _) eqn:C.
  { rewrite (C2 eq_refl eq_refl) in H; injection H as <-.
    exists (with_active (clip sin cos l1) false), []; rewrite app_nil_r.
    split; [reflexivity|split; [|simpl; lia]].
    apply (seed_ok_replace _ _ l); auto.
    - split; [simpl; lia|split; [right; split; [reflexivity|]|intros _; exact E]].
      unfold tip_at; cbn [p0 p1 angle steps with_active]; change (tip_at sin cos (clip sin cos l1) (steps l1 - 1)).
      rewrite Hst, Nat.sub_succ, Nat.sub_0_r; apply tip_at_clip; apply Hd; exact Ht.
    - intros g Htg; exists g; split; [lia|].
      exact (tip_at_clip _ _ (Hd g Htg)). }
  destruct (split l1) eqn:S'.
  { destruct (process_line_split cfg st ss si (mkSeed a cur) li l l1 stg st' Hs Hsd Hl Hg E C S' H)
      as (c & u & st2 & st3 & B & Hs').
    pose proof (buildLine_shape _ _ _ _ _ _ _ _ _ B)
      as (_ & _ & Bp & Ba & Bpar & Bg & Bact & Bst).
    pose proof (buildLine_tip _ _ _ _ _ _ _ B) as (_ & Bt & _).
    exists (with_split l1 false), [c]; split; [exact Hs'|split; [|simpl; lia]].
    assert (Hok' : seed_ok sin cos PI (list_set cur li (with_split l1 false))).
    { apply (seed_ok_replace _ _ l); auto.
      - split; [simpl; lia|split; [left; exact Ht1|intros _; exact E]].
      - intros g Htg; exists (S g); split; [lia|exact (Hd g Htg)]. }
    apply (seed_ok_push _ _ li (with_split l1 false) Hok'); auto.
    - split; [rewrite Bst; lia|split; [left; rewrite Bst; exact Bt|]].
      rewrite Bg; discriminate.
    - apply nth_error_list_set_eq; exact Hlen.
    - exists (steps l1), (steps l1); split; [lia|split; [exact Ht1|]].
      rewrite Bp; cbn [x y p0 angle with_split]; exact Ht1.
    - rewrite Ba; cbn [angle with_split].
      destruct (Qlt_bool u (1/2)); [left|right]; ring. }
  rewrite (C3 eq_refl eq_refl eq_refl) in H; injection H as <-.
  exists l1, []; rewrite app_nil_r; split; [reflexivity|split; [|simpl; lia]].
  apply (seed_ok_replace _ _ l); auto.
  - split; [lia|split; [left; exact Ht1|intros _; exact E]].
  - intros g Htg; exists (S g); split; [lia|exact (Hd g Htg)].
Qed.

Lemma forM_process_ok cfg si rest : forall st ss a cur st',
  seeds st = Some ss -> nth_error ss si = Some (mkSeed a cur) ->
  NoDup rest -> (forall j, In j rest -> exists l, nth_error cur j = Some l /\ active l = true) ->
  seed_ok sin cos PI cur ->
  forM_ rest (process_line sin cos PI isVisible cfg si) st = Ok tt st' ->
  exists cur', seeds st' = Some (list_set ss si (mkSeed a cur')) /\
    seed_ok sin cos PI cur' /\ length cur' <= length cur + length rest.
Proof.
  induction rest as [|j0 rest IH]; intros st ss a cur st' Hs Hsd Hnd Hact Hok H.
  { simpl in H; injection H as <-.
    exists cur; split; [rewrite Hs; f_equal; symmetry; apply list_set_nth_same; exact Hsd|].
    split; [exact Hok|simpl; lia]. }
  simpl in H; apply bind_inv in H as ([] & st1 & H1 & H2).
  destruct (Hact j0 (or_introl eq_refl)) as (l0 & Hl0 & Ha0).
  destruct (process_line_ok cfg st ss si a cur j0 l0 st1 Hs Hsd Hl0 Ha0 Hok H1)
    as (l0' & extra & Hs1 & Hok1 & Hex).
  inversion Hnd as [|? ? Hnin Hnd']; subst.
  assert (Hsi : si < length ss) by (eapply nth_error_Some_lt; eauto).
  destruct (IH st1 _ a _ st' Hs1 (nth_error_list_set_eq _ _ _ Hsi) Hnd') as (cur' & Hs' & Hok' & Hlen');
    [| exact Hok1 | exact H2 |].
  { intros j Hj; destruct (Hact j (or_intror Hj)) as (l & Hl & Hal).
    rewrite nth_error_set_app; [exists l; auto| |eapply nth_error_Some_lt; eauto].
    intros ->; contradiction. }
  exists cur'; split; [rewrite Hs', list_set_list_set; reflexivity|split; [exact Hok'|]].
  rewrite length_app, length_list_set in Hlen'; simpl; lia.
Qed.

Lemma active_from_length (ls : list line) k :
  length (filter (fun p => active (snd p)) (combine (seq k (length ls)) ls)) = count_active ls.
Proof.
  unfold count_active; revert k; induction ls as [|a ls IH]; intros k; simpl; [reflexivity|].
  destruct (active a); simpl; rewrite IH; reflexivity.
Qed.

Lemma active_indices_length ls : length (active_indices ls) = count_active ls.
Proof. unfold active_indices, indexed; rewrite length_map; apply active_from_length. Qed.

Lemma seed_grow_ok cfg si st ss sd st' :
  seeds st = Some ss -> nth_error ss si = Some sd -> seed_ok sin cos PI (lines sd) ->
  seed_grow sin cos PI isVisible cfg si st = Ok tt st' ->
  exists ls', seeds st' = Some (list_set ss si (mkSeed (seed_angle sd) ls')) /\
    seed_ok sin cos PI ls' /\ length ls' <= length (lines sd) + count_active (lines sd).
Proof.
  intros Hs Hsd Hok H; unfold seed_grow in H.
  rewrite (bind_ok _ _ _ _ _ (get_seed_ok _ _ _ _ Hs Hsd)) in H.
  destruct sd as [a cur]; simpl in *.
  destruct (forM_process_ok cfg si (active_indices cur) st ss a cur st' Hs Hsd
              (active_indices_nodup cur) (fun j Hj => proj1 (active_indices_in cur j) Hj) Hok H)
    as (cur' & Hs' & Hok' & Hlen).
  exists cur'; split; [exact Hs'|split; [exact Hok'|rewrite <- active_indices_length; exact Hlen]].
Qed.

Lemma forM_seed_grow_ok cfg idx : forall st ss st',
  seeds st = Some ss -> (forall si sd, nth_error ss si = Some sd -> seed_ok sin cos PI (lines sd)) ->
  (forall i, In i idx -> i < length ss) ->
  forM_ idx (seed_grow sin cos PI isVisible cfg) st = Ok tt st' ->
  exists ss', seeds st' = Some ss' /\
    forall si sd, nth_error ss' si = Some sd -> seed_ok sin cos PI (lines sd).
Proof.
  induction idx as [|i0 idx IH]; intros st ss st' Hs Hok Hlt H.
  { simpl in H; injection H as <-; exists ss; split; assumption. }
  simpl in H; apply bind_inv in H as ([] & st1 & H1 & H2).
  destruct (nth_error ss i0) as [sd0|] eqn:Hsd0;
    [|apply nth_error_None in Hsd0; specialize (Hlt i0 (or_introl eq_refl)); lia].
  destruct (seed_grow_ok cfg i0 st ss sd0 st1 Hs Hsd0 (Hok _ _ Hsd0) H1) as (ls0 & Hs1 & Hok0 & _).
  apply (IH st1 _ st' Hs1); [| |exact H2].
  - intros si sd Hsd; destruct (Nat.eq_dec si i0) as [->|Hne].
    + rewrite nth_error_list_set_eq in Hsd by (eapply nth_error_Some_lt; eauto).
      injection Hsd as <-; exact Hok0.
    + rewrite nth_error_list_set_ne in Hsd by lia; exact (Hok _ _ Hsd).
  - intros i Hi; rewrite length_list_set; apply Hlt; right; exact Hi.
Qed.

Lemma forM_seed_grow_len cfg idx : forall st ss st',
  seeds st = Some ss -> (forall si sd, nth_error ss si = Some sd -> seed_ok sin cos PI (lines sd)) ->
  NoDup idx -> (forall i, In i idx -> i < length ss) ->
  forM_ idx (seed_grow sin cos PI isVisible cfg) st = Ok tt st' ->
  exists ss', seeds st' = Some ss' /\ length ss' = length ss /\
    forall si sd, nth_error ss si = Some sd -> exists sd', nth_error ss' si = Some sd' /\
      (In si idx -> length (lines sd') <= length (lines sd) + count_active (lines sd)) /\
      (~ In si idx -> sd' = sd).
Proof.
  induction idx as [|i0 idx IH]; intros st ss st' Hs Hok Hnd Hlt H.
  { simpl in H; injection H as <-; exists ss; split; [exact Hs|split; [reflexivity|]].
    intros si sd Hsd; exists sd; split; [exact Hsd|split; [intros []|reflexivity]]. }
  simpl in H; apply bind_inv in H as ([] & st1 & H1 & H2).
  inversion Hnd as [|? ? Hni0 Hnd']; subst.
  assert (Hi0 : i0 < length ss) by (apply Hlt; left; reflexivity).
  destruct (nth_error ss i0) as [sd0|] eqn:Hsd0;
    [|apply nth_error_None in Hsd0; lia].
  destruct (seed_grow_ok cfg i0 st ss sd0 st1 Hs Hsd0 (Hok _ _ Hsd0) H1) as (ls0 & Hs1 & Hok0 & Hlen0).
  destruct (IH st1 _ st' Hs1) as (ss' & Hs' & Hl' & Hall); [|exact Hnd'| |exact H2|].
  - intros si sd Hsd; destruct (Nat.eq_dec si i0) as [->|Hne].
    + rewrite nth_error_list_set_eq in Hsd by exact Hi0.
      injection Hsd as <-; exact Hok0.
    + rewrite nth_error_list_set_ne in Hsd by lia; exact (Hok _ _ Hsd).
  - intros i Hi; rewrite length_list_set; apply Hlt; right; exact Hi.
  - exists ss'; split; [exact Hs'|split; [rewrite Hl', length_list_set; reflexivity|]].
    intros si sd Hsd; destruct (Nat.eq_dec si i0) as [->|Hne].
    + rewrite Hsd0 in Hsd; injection Hsd as <-.
      destruct (Hall i0 (mkSeed (seed_angle sd0) ls0)) as (sd' & Hsd' & _ & Heq);
        [apply nth_error_list_set_eq; exact Hi0|].
      rewrite (Heq Hni0) in Hsd'.
      exists (mkSeed (seed_angle sd0) ls0); split; [exact Hsd'|split; [intros _; exact Hlen0|]].
      intros Hn; exfalso; apply Hn; left; reflexivity.
    + destruct (Hall si sd) as (sd' & Hsd' & Hin & Heq);
        [rewrite nth_error_list_set_ne by lia; exact Hsd|].
      exists sd'; split; [exact Hsd'|split].
      * intros [E|Hi]; [congruence|exact (Hin Hi)].
      * intros Hn; apply Heq; intros Hi; apply Hn; right; exact Hi.
Qed.

Lemma model_grow_ok cfg st st' :
  forest_ok sin cos PI st -> model_grow sin cos PI isVisible cfg st = Ok tt st' ->
  forest_ok sin cos PI st'.
Proof.
  intros Hok H; unfold model_grow in H; rewrite get_bind in H.
  unfold forest_ok in *; destruct (seeds st) as [ss|] eqn:Hs; [|discriminate].
  destruct (forM_seed_grow_ok cfg (seq 0 (length ss)) st ss st' Hs Hok
              (fun i Hi => proj2 (proj1 (in_seq _ _ _) Hi)) H) as (ss' & Hs' & Hok').
  rewrite Hs'; exact Hok'.
Qed.

(** The only line of a new seed, as [buildSeed()] makes it. *)
Lemma buildSeed_root PI' w h cfg st sd st' :
  buildSeed sin cos PI' w h cfg st = Ok sd st' ->
  exists a px py l, lines sd = [l] /\ seed_angle sd = a /\ line_ok sin cos l /\
    p0 l = mkPoint px py /\ angle l = a /\ parent l = None /\ generation l = O /\
    active l = true /\ steps l = 1 /\
    exists st1, rnd 0 (PI' * 2) st = Ok a st1 /\
    exists st2, rnd 0 w st1 = Ok px st2 /\ exists st3, rnd 0 h st2 = Ok py st3.
Proof.
  unfold buildSeed; intros H.
  apply bind_inv in H as (a & st1 & H1 & H).
  apply bind_inv in H as (px & st2 & H2 & H).
  apply bind_inv in H as (py & st3 & H3 & H).
  apply bind_inv in H as (c & st4 & H4 & H); injection H as <- _.
  pose proof (buildLine_shape _ _ _ _ _ _ _ _ _ H4) as (_ & _ & Bp & Ba & Bpar & Bg & Bact & Bst).
  pose proof (buildLine_tip _ _ _ _ _ _ _ H4) as (_ & Bt & Be).
  exists a, px, py, c; simpl.
  split; [reflexivity|split; [reflexivity|split]].
  { split; [rewrite Bst; lia|split; [left; rewrite Bst; exact Bt|intros _; exact (Be eq_refl)]]. }
  split; [exact Bp|split; [exact Ba|split; [exact Bpar|split; [exact Bg|split; [exact Bact|]]]]].
  split; [exact Bst|].
  exists st1; split; [exact H1|exists st2; split; [exact H2|exists st3; exact H3]].
Qed.

Lemma repeatM_buildSeed_ok PI' w h cfg n : forall st ss st',
  repeatM n (buildSeed sin cos PI' w h cfg) st = Ok ss st' ->
  length ss = n /\ forall si sd, nth_error ss si = Some sd -> seed_ok sin cos PI (lines sd).
Proof.
  induction n as [|n IH]; intros st ss st' H; simpl in H.
  - injection H as <- _; split; [reflexivity|intros [|si] sd Hsd; discriminate].
  - apply bind_inv in H as (sd & st1 & H1 & H).
    apply bind_inv in H as (r & st2 & H2 & H); injection H as <- _.
    destruct (IH _ _ _ H2) as [Hlen Hok]; split; [simpl; rewrite Hlen; reflexivity|].
    intros [|si] sd' Hsd; simpl in Hsd; [injection Hsd as <-|exact (Hok _ _ Hsd)].
    destruct (buildSeed_root _ _ _ _ _ _ _ H1)
      as (a & px & py & l & Hls & _ & Hl & _ & _ & Hpar & Hg & _).
    rewrite Hls; intros [|j] l' Hj; simpl in Hj; [injection Hj as <-|destruct j; discriminate].
    split; [exact Hl|rewrite Hpar; split; [reflexivity|exact Hg]].
Qed.

Lemma generate_ok PI' w h cfg st st' :
  generate sin cos PI' w h cfg st = Ok tt st' -> forest_ok sin cos PI st'.
Proof.
  unfold generate; destruct (Array_length (seedCount cfg)) as [n|]; [|discriminate].
  intros H; apply bind_inv in H as (ss & st1 & H1 & H); injection H as <-.
  unfold forest_ok; simpl; exact (proj2 (repeatM_buildSeed_ok _ _ _ _ _ _ _ _ H1)).
Qed.

Lemma orientation_colinear p q r :
  ((y q - y p) * (x r - x q) - (x q - x p) * (y r - y q) == 0)%Q ->
  orientation p q r = COLINEAR.
Proof.
  intros H; unfold orientation; cbv zeta.
  rewrite (Qlt_bool_morph 0 0 _ 0 (Qeq_refl 0) H), (Qlt_bool_morph _ 0 0 0 H (Qeq_refl 0)).
  reflexivity.
Qed.

Lemma Qle_bool_true a b : (a <= b)%Q -> Qle_bool a b = true.
Proof. apply Qle_bool_iff. Qed.

(** A point [k] steps along a direction [d] from [a], with [0 <= k <= g],
    lies between [a] and the point [g] steps from [a]. *)
Lemma linesIntersect_o1 l1 l2 :
  orientation (p0 l1) (p1 l1) (p0 l2) = COLINEAR ->
  onSegment (p0 l1) (p0 l2) (p1 l1) = true -> linesIntersect l1 l2 = true.
Proof.
  intros Ho Hs; unfold linesIntersect; cbv zeta; rewrite Ho, Hs.
  destruct (_ && _); reflexivity.
Qed.

End ShapeProofs.

Section ReachShape.

Variables (sin cos : Q -> Q) (PI canvas_width canvas_height : Q).
Variable isVisible : Q -> Q -> bool.

Lemma reachable_forest_ok cfg st :
  reachable sin cos PI canvas_width canvas_height isVisible cfg st -> forest_ok sin cos PI st.
Proof.
  induction 1 as [st Hs _|st st' _ _ _ H|st st' _ IH H].
  - unfold forest_ok; rewrite Hs; exact I.
  - eapply generate_ok; exact H.
  - eapply model_grow_ok; [exact IH|exact H].
Qed.

Lemma reachable_seed_ok cfg st ss si sd :
  reachable sin cos PI canvas_width canvas_height isVisible cfg st ->
  seeds st = Some ss -> nth_error ss si = Some sd -> seed_ok sin cos PI (lines sd).
Proof.
  intros R Hs Hsd; pose proof (reachable_forest_ok cfg st R) as H.
  unfold forest_ok in H; rewrite Hs in H; exact (H si sd Hsd).
Qed.

(** X1: in every reachable state every line has made at least one step,
    and its tip lies [steps] growth steps along its angle from its origin,
    or one step less for an inactive line that was retracted. *)
Theorem reachable_line_tip cfg st ss si sd j l :
  reachable sin cos PI canvas_width canvas_height isVisible cfg st ->
  seeds st = Some ss -> nth_error ss si = Some sd -> nth_error (lines sd) j = Some l ->
  (1 <= steps l)%nat /\
  (tip_at sin cos l (steps l) \/ (active l = false /\ tip_at sin cos l (steps l - 1))).
Proof.
  intros R Hs Hsd Hl.
  destruct (reachable_seed_ok cfg st ss si sd R Hs Hsd j l Hl) as [(H1 & H2 & _) _].
  split; assumption.
Qed.

(** X2: in every reachable state a line without parent is the first line
    of its seed and has generation 0; a line with a parent comes after it
    in the same seed's lines and has the parent's generation plus one. *)
Theorem reachable_parent_link cfg st ss si sd j l :
  reachable sin cos PI canvas_width canvas_height isVisible cfg st ->
  seeds st = Some ss -> nth_error ss si = Some sd -> nth_error (lines sd) j = Some l ->
  match parent l with
  | None => j = O /\ generation l = O
  | Some p => (p < j)%nat /\ exists lp, nth_error (lines sd) p = Some lp /\
                generation l = S (generation lp)
  end.
Proof.
  intros R Hs Hsd Hl; pose proof (proj2 (reachable_seed_ok cfg st ss si sd R Hs Hsd j l Hl)) as H.
  destruct (parent l) as [p|]; [|exact H].
  destruct H as (Hp & lp & Hlp & Hg & _); split; [exact Hp|exists lp; split; assumption].
Qed.

(** X3: in every reachable state a child line starts at a grid point of
    its parent's segment (a whole number of steps along it, not beyond its
    tip) and its angle is the parent's angle plus or minus [PI / 2]. *)
Theorem reachable_child_geometry cfg st ss si sd j l p lp :
  reachable sin cos PI canvas_width canvas_height isVisible cfg st ->
  seeds st = Some ss -> nth_error ss si = Some sd -> nth_error (lines sd) j = Some l ->
  parent l = Some p -> nth_error (lines sd) p = Some lp ->
  on_parent sin cos lp l /\
  (angle l == angle lp + PI / 2 \/ angle l == angle lp - PI / 2)%Q.
Proof.
  intros R Hs Hsd Hl Hp Hlp.
  pose proof (proj2 (reachable_seed_ok cfg st ss si sd R Hs Hsd j l Hl)) as H.
  rewrite Hp in H; destruct H as (_ & lp' & Hlp' & _ & Hon & Hang).
  rewrite Hlp in Hlp'; injection Hlp' as <-; split; assumption.
Qed.

(** X4: in every reachable state the lines of generation 0 are exactly
    the first lines of the seeds; they have no parent and never expire. *)
Theorem reachable_root cfg st ss si sd j l :
  reachable sin cos PI canvas_width canvas_height isVisible cfg st ->
  seeds st = Some ss -> nth_error ss si = Some sd -> nth_error (lines sd) j = Some l ->
  (j = O <-> generation l = O) /\
  (generation l = O -> parent l = None /\ expired l = false).
Proof.
  intros R Hs Hsd Hl.
  destruct (reachable_seed_ok cfg st ss si sd R Hs Hsd j l Hl) as [(_ & _ & He) Hp].
  destruct (parent l) as [p|].
  - destruct Hp as (Hpj & lp & _ & Hg & _); rewrite Hg.
    split; [split; [lia|discriminate]|discriminate].
  - destruct Hp as [Hj Hg]; split; [split; auto|intros Hg'; split; auto].
Qed.

(** X6: from a reachable state, one [model.grow()] keeps the number of
    seeds and adds to each seed at most one line per line that was active
    in it, so each seed's line count at most doubles. *)
Theorem reachable_grow_bound cfg st ss st' :
  reachable sin cos PI canvas_width canvas_height isVisible cfg st ->
  seeds st = Some ss ->
  model_grow sin cos PI isVisible cfg st = Ok tt st' ->
  exists ss', seeds st' = Some ss' /\ length ss' = length ss /\
    forall si sd, nth_error ss si = Some sd -> exists sd', nth_error ss' si = Some sd' /\
      length (lines sd') <= length (lines sd) + count_active (lines sd) /\
      length (lines sd') <= 2 * length (lines sd).
Proof.
  intros R Hs H.
  pose proof (reachable_forest_ok cfg st R) as Hok; unfold forest_ok in Hok; rewrite Hs in Hok.
  unfold model_grow in H; rewrite get_bind, Hs in H.
  destruct (forM_seed_grow_len sin cos PI isVisible cfg (seq 0 (length ss)) st ss st' Hs Hok
              (seq_NoDup _ _) (fun i Hi => proj2 (proj1 (in_seq _ _ _) Hi)) H)
    as (ss' & Hs' & Hl & Hall).
  exists ss'; split; [exact Hs'|split; [exact Hl|]].
  intros si sd Hsd; destruct (Hall si sd Hsd) as (sd' & Hsd' & Hin & _).
  assert (Hsi : In si (seq 0 (length ss))).
  { apply in_seq; split; [lia|]; apply nth_error_Some; congruence. }
  specialize (Hin Hsi).
  assert (count_active (lines sd) <= length (lines sd))
    by (unfold count_active; apply filter_length_le).
  exists sd'; split; [exact Hsd'|split; lia].
Qed.

End ReachShape.

Lemma Qlt_bool_opp_l v : Qlt_bool 0 (- v) = Qlt_bool v 0.
Proof. apply eq_true_iff_eq; rewrite !Qlt_bool_iff; split; intros; lra. Qed.

Lemma Qlt_bool_opp_r v : Qlt_bool (- v) 0 = Qlt_bool 0 v.
Proof. apply eq_true_iff_eq; rewrite !Qlt_bool_iff; split; intros; lra. Qed.

(** X7: reversing a triple swaps clockwise and anticlockwise
    [orientation] and keeps collinear. *)
Theorem orientation_reverse p q r :
  orientation r q p =
  (if Nat.eqb (orientation p q r) CLOCKWISE then ANTICLOCKWISE
   else if Nat.eqb (orientation p q r) ANTICLOCKWISE then CLOCKWISE
   else COLINEAR).
Proof.
  unfold orientation; cbv zeta.
  set (v := ((y q - y p) * (x r - x q) - (x q - x p) * (y r - y q))%Q).
  assert (E : ((y q - y r) * (x p - x q) - (x q - x r) * (y p - y q) == - v)%Q)
    by (unfold v; ring).
  rewrite (Qlt_bool_morph 0 0 _ _ (Qeq_refl 0) E), (Qlt_bool_morph _ _ 0 0 E (Qeq_refl 0)).
  rewrite Qlt_bool_opp_l, Qlt_bool_opp_r.
  destruct (Qlt_bool 0 v) eqn:H1, (Qlt_bool v 0) eqn:H2; try reflexivity.
  apply Qlt_bool_iff in H1; apply Qlt_bool_iff in H2; lra.
Qed.

Lemma linesIntersect_comm l1 l2 : linesIntersect l1 l2 = linesIntersect l2 l1.
Proof.
  unfold linesIntersect; cbv zeta.
  destruct (Nat.eqb (orientation (p0 l1) (p1 l1) (p0 l2)) (orientation (p0 l1) (p1 l1) (p1 l2))),
           (Nat.eqb (orientation (p0 l2) (p1 l2) (p0 l1)) (orientation (p0 l2) (p1 l2) (p1 l1)));
  destruct (Nat.eqb (orientation (p0 l1) (p1 l1) (p0 l2)) COLINEAR),
           (Nat.eqb (orientation (p0 l1) (p1 l1) (p1 l2)) COLINEAR),
           (Nat.eqb (orientation (p0 l2) (p1 l2) (p0 l1)) COLINEAR),
           (Nat.eqb (orientation (p0 l2) (p1 l2) (p1 l1)) COLINEAR);
  destruct (onSegment (p0 l1) (p0 l2) (p1 l1)), (onSegment (p0 l1) (p1 l2) (p1 l1)),
           (onSegment (p0 l2) (p0 l1) (p1 l2)), (onSegment (p0 l2) (p1 l1) (p1 l2));
  reflexivity.
Qed.

(** X8: [linesIntersect] is symmetric in its two lines. *)
Theorem linesIntersect_symmetric l1 l2 : linesIntersect l1 l2 = linesIntersect l2 l1.
Proof. apply linesIntersect_comm. Qed.

Lemma onSegment_start p r : onSegment p p r = true.
Proof.
  unfold onSegment; rewrite !Qle_bool_true;
    [reflexivity|apply Q.le_min_l|apply Q.le_max_l|apply Q.le_min_l|apply Q.le_max_l].
Qed.

Lemma onSegment_end p r : onSegment p r r = true.
Proof.
  unfold onSegment; rewrite !Qle_bool_true;
    [reflexivity|apply Q.le_min_r|apply Q.le_max_r|apply Q.le_min_r|apply Q.le_max_r].
Qed.

Lemma linesIntersect_o2 l1 l2 :
  orientation (p0 l1) (p1 l1) (p1 l2) = COLINEAR ->
  onSegment (p0 l1) (p1 l2) (p1 l1) = true -> linesIntersect l1 l2 = true.
Proof.
  intros Ho Hs; unfold linesIntersect; cbv zeta; rewrite Ho, Hs.
  destruct (_ && _); [reflexivity|].
  destruct (_ && _); reflexivity.
Qed.

(** X9: two lines that share an end point always intersect. *)
Theorem linesIntersect_shared_endpoint l1 l2 :
  p0 l2 = p0 l1 \/ p0 l2 = p1 l1 \/ p1 l2 = p0 l1 \/ p1 l2 = p1 l1 ->
  linesIntersect l1 l2 = true.
Proof.
  intros [E|[E|[E|E]]].
  - apply linesIntersect_o1; rewrite E; [|apply onSegment_start].
    apply orientation_colinear; ring.
  - apply linesIntersect_o1; rewrite E; [|apply onSegment_end].
    apply orientation_colinear; ring.
  - apply linesIntersect_o2; rewrite E; [|apply onSegment_start].
    apply orientation_colinear; ring.
  - apply linesIntersect_o2; rewrite E; [|apply onSegment_end].
    apply orientation_colinear; ring.
Qed.

Lemma rnd_between a b st r st' :
  (a < b)%Q -> ~ (b == 0)%Q -> rnd a b st = Ok r st' -> (a <= r < b)%Q.
Proof.
  intros Hab Hb H; rewrite rnd_eq in H.
  pose proof (mulberry32_range (prng st)) as [H0 H1].
  revert H H0 H1; generalize (fst (mulberry32 (prng st))); intros u H H0 H1.
  injection H as <- _.
  destruct (Qeq_bool b 0) eqn:E; [apply Qeq_bool_iff in E; contradiction|].
  split; nra.
Qed.

Lemma rnd_below a st r st' : (0 < a)%Q -> rnd a 0 st = Ok r st' -> (0 <= r < a)%Q.
Proof.
  intros Ha H; rewrite rnd_eq in H.
  pose proof (mulberry32_range (prng st)) as [H0 H1].
  revert H H0 H1; generalize (fst (mulberry32 (prng st))); intros u H H0 H1.
  injection H as <- _.
  change (Qeq_bool 0 0) with true.
  split; nra.
Qed.

Lemma rnd_unit st r st' : rnd 1 0 st = Ok r st' -> (0 <= r < 1)%Q.
Proof. apply rnd_below; reflexivity. Qed.

Lemma Math_round_range q : (1 <= q < 10)%Q -> (1 <= Math_round q <= 10)%Z.
Proof.
  intros [H1 H2]; unfold Math_round.
  pose proof (Qfloor_le (q + (1#2))) as Hle.
  pose proof (Qlt_floor (q + (1#2))) as Hlt.
  set (n := Qfloor (q + (1#2))) in *.
  split.
  - destruct (Z.le_gt_cases 1 n) as [Hn|Hn]; [exact Hn|exfalso].
    assert (Hn' : (inject_Z (n + 1) <= inject_Z 1)%Q) by (rewrite <- Zle_Qle; lia).
    change (inject_Z 1) with 1%Q in Hn'; lra.
  - destruct (Z.le_gt_cases n 10) as [Hn|Hn]; [exact Hn|exfalso].
    assert (Hn' : (inject_Z 11 <= inject_Z n)%Q) by (rewrite <- Zle_Qle; lia).
    change (inject_Z 11) with (11#1)%Q in Hn'; lra.
Qed.

(** X10: [buildRandomConfig] yields a whole [seedCount] in 1..10 and every
    other number in the range of its draw; the alpha range depends on
    [useGradients]. *)
Theorem buildRandomConfig_ranges st cfg st' :
  buildRandomConfig st = Ok cfg st' ->
  (exists n, (1 <= n <= 10)%Z /\ seedCount cfg = inject_Z n) /\
  (2#100 <= pBifurcation cfg < 5#100)%Q /\
  (0 <= maxRectWidth cfg < 100)%Q /\
  (0 <= rectBaseHue cfg < 360)%Q /\
  (20 <= rectSaturation cfg < 100)%Q /\
  (0 <= rectHueVariation cfg < 100)%Q /\
  (if useGradients cfg then (4#10 <= rectAlpha cfg < 8#10)%Q
   else (1#10 <= rectAlpha cfg < 4#10)%Q) /\
  (20 <= rectLightness cfg < 70)%Q /\
  (0 <= expiryThreshold cfg < 1#1000)%Q /\
  (0 <= lineDarkness cfg < 1)%Q.
Proof.
  unfold buildRandomConfig; intros H.
  apply bind_inv in H as (r & st1 & H1 & H).
  apply bind_inv in H as (sc & st2 & H2 & H); apply rnd_between in H2; [|reflexivity|discriminate].
  apply bind_inv in H as (pb & st3 & H3 & H); apply rnd_between in H3; [|reflexivity|discriminate].
  apply bind_inv in H as (mrw & st4 & H4 & H); apply rnd_between in H4; [|reflexivity|discriminate].
  apply bind_inv in H as (hue & st5 & H5 & H); apply rnd_below in H5; [|reflexivity].
  apply bind_inv in H as (sat & st6 & H6 & H); apply rnd_between in H6; [|reflexivity|discriminate].
  apply bind_inv in H as (hv & st7 & H7 & H); apply rnd_below in H7; [|reflexivity].
  apply bind_inv in H as (alpha & st8 & H8 & H).
  assert (Ha : if Qlt_bool (3#10) r then (4#10 <= alpha < 8#10)%Q else (1#10 <= alpha < 4#10)%Q).
  { destruct (Qlt_bool (3#10) r); (apply rnd_between in H8; [exact H8|reflexivity|discriminate]). }
  clear H8.
  apply bind_inv in H as (light & st9 & H9 & H); apply rnd_between in H9; [|reflexivity|discriminate].
  apply bind_inv in H as (et & st10 & H10 & H); apply rnd_below in H10; [|reflexivity].
  apply bind_inv in H as (dark & st11 & H11 & H); apply rnd_unit in H11.
  apply bind_inv in H as (ph & st12 & H12 & H); injection H as <- _; simpl.
  split; [exists (Math_round sc); split; [apply Math_round_range; exact H2|reflexivity]|].
  repeat (split; [assumption|]); assumption.
Qed.

Section GenerateRoots.

Variables (sin cos : Q -> Q) (PI canvas_width canvas_height : Q).

Lemma rnd_total a b st : exists r st', rnd a b st = Ok r st'.
Proof. rewrite rnd_eq; eauto. Qed.

Lemma buildSeed_total cfg st :
  exists sd st', buildSeed sin cos PI canvas_width canvas_height cfg st = Ok sd st'.
Proof.
  unfold buildSeed.
  destruct (rnd_total 0 (PI * 2) st) as (a & st1 & H1); rewrite (bind_ok _ _ _ _ _ H1).
  destruct (rnd_total 0 canvas_width st1) as (px & st2 & H2); rewrite (bind_ok _ _ _ _ _ H2).
  destruct (rnd_total 0 canvas_height st2) as (py & st3 & H3); rewrite (bind_ok _ _ _ _ _ H3).
  destruct (buildLine_total sin cos cfg (mkPoint px py) a None st3) as (c & st4 & H4).
  rewrite (bind_ok _ _ _ _ _ H4); eauto.
Qed.

Lemma repeatM_total {A} (m : M A) :
  (forall st, exists a st', m st = Ok a st') ->
  forall n st, exists xs st', repeatM n m st = Ok xs st'.
Proof.
  intros Hm n; induction n as [|n IH]; intros st; simpl; [eexists; eexists; reflexivity|].
  destruct (Hm st) as (a & st1 & H1); rewrite (bind_ok _ _ _ _ _ H1).
  destruct (IH st1) as (xs & st2 & H2); rewrite (bind_ok _ _ _ _ _ H2); eauto.
Qed.

Lemma repeatM_each {A} (m : M A) n : forall st xs st',
  repeatM n m st = Ok xs st' -> length xs = n /\
  forall a, In a xs -> exists st0 st1, m st0 = Ok a st1.
Proof.
  induction n as [|n IH]; intros st xs st' H; simpl in H.
  - injection H as <- _; split; [reflexivity|intros a []].
  - apply bind_inv in H as (a & st1 & H1 & H).
    apply bind_inv in H as (r & st2 & H2 & H); injection H as <- _.
    destruct (IH _ _ _ H2) as [Hlen Hr]; split; [simpl; rewrite Hlen; reflexivity|].
    intros b [<-|Hb]; [eauto|exact (Hr b Hb)].
Qed.

Lemma Array_length_some q n : Array_length q = Some n -> (q == inject_Z (Z.of_nat n))%Q.
Proof.
  unfold Array_length; intros H.
  transitivity (Qred q); [symmetry; apply Qred_correct|].
  destruct (Qred q) as [num den]; cbn [Qnum Qden] in H.
  destruct (Pos.eqb den 1 && (0 <=? num)%Z && (num <? two32)%Z) eqn:E; [|discriminate].
  injection H as <-.
  apply andb_true_iff in E as [E _]; apply andb_true_iff in E as [E1 E2].
  apply Pos.eqb_eq in E1; apply Z.leb_le in E2; subst den.
  rewrite Z2Nat.id by exact E2; reflexivity.
Qed.

Lemma Array_length_small n : (1 <= n <= 10)%Z -> Array_length (inject_Z n) = Some (Z.to_nat n).
Proof.
  intros H.
  assert (E : (n = 1 \/ n = 2 \/ n = 3 \/ n = 4 \/ n = 5 \/ n = 6 \/ n = 7 \/ n = 8 \/
              n = 9 \/ n = 10)%Z) by lia.
  repeat destruct E as [->|E]; try reflexivity; subst n; reflexivity.
Qed.

Lemma count_forest_roots ss :
  (forall sd, In sd ss -> exists l, lines sd = [l] /\ active l = true) ->
  count_forest ss = length ss.
Proof.
  unfold count_forest; induction ss as [|sd ss IH]; intros H; simpl; [reflexivity|].
  destruct (H sd (or_introl eq_refl)) as (l & Hl & Ha).
  rewrite IH by (intros sd' Hsd'; apply H; right; exact Hsd').
  unfold count_active; rewrite Hl; simpl; rewrite Ha; reflexivity.
Qed.

Lemma buildSeed_place cfg st sd st' :
  (0 < PI)%Q -> (0 < canvas_width)%Q -> (0 < canvas_height)%Q ->
  buildSeed sin cos PI canvas_width canvas_height cfg st = Ok sd st' ->
  exists l, lines sd = [l] /\
    (0 <= x (p0 l) < canvas_width)%Q /\ (0 <= y (p0 l) < canvas_height)%Q /\
    angle l = seed_angle sd /\ (0 <= angle l < PI * 2)%Q /\
    active l = true /\ parent l = None /\ generation l = O /\ steps l = 1.
Proof.
  intros HP Hw Hh H.
  destruct (buildSeed_root sin cos _ _ _ _ _ _ _ H)
    as (a & px & py & l & Hls & Ha & _ & Hp0 & Hal & Hpar & Hg & Hact & Hst &
        st1 & R1 & st2 & R2 & st3 & R3).
  assert (HP2 : (0 < PI * 2)%Q) by lra.
  pose proof (rnd_between _ _ _ _ _ HP2 ltac:(lra) R1) as R1'.
  pose proof (rnd_between _ _ _ _ _ Hw ltac:(lra) R2) as R2'.
  pose proof (rnd_between _ _ _ _ _ Hh ltac:(lra) R3) as R3'.
  exists l; rewrite Hp0, Hal, Ha; cbn [x y].
  split; [exact Hls|split; [exact R2'|split; [exact R3'|split; [reflexivity|]]]].
  split; [exact R1'|auto].
Qed.

Lemma generate_roots_gen cfg st st' :
  generate sin cos PI canvas_width canvas_height cfg st = Ok tt st' ->
  exists ss, seeds st' = Some ss /\ (seedCount cfg == inject_Z (Z.of_nat (length ss)))%Q /\
    activeLineCount st' = (activeLineCount st + Z.of_nat (length ss))%Z /\
    forall sd, In sd ss -> exists st0 st1,
      buildSeed sin cos PI canvas_width canvas_height cfg st0 = Ok sd st1.
Proof.
  intros H; pose proof (generate_shape _ _ _ _ _ _ _ _ H) as (ss' & Hs' & Hc').
  unfold generate in H; destruct (Array_length (seedCount cfg)) as [n|] eqn:En; [|discriminate].
  apply bind_inv in H as (ss & st1 & H1 & H); injection H as <-.
  simpl in Hs'; injection Hs' as <-.
  destruct (repeatM_each _ _ _ _ _ H1) as [Hlen Heach].
  exists ss; split; [reflexivity|split; [rewrite Hlen; exact (Array_length_some _ _ En)|]].
  split; [|exact Heach].
  rewrite Hc'; f_equal; f_equal; apply count_forest_roots.
  intros sd Hsd; destruct (Heach sd Hsd) as (st0 & st2 & B).
  destruct (buildSeed_root sin cos _ _ _ _ _ _ _ B) as (a & px & py & l & Hls & _ & _ & _ & _ & _ & _ & Hact & _).
  eauto.
Qed.

(** X11: for positive [PI] and canvas sizes, a successful [generate()]
    makes [seedCount] seeds, raises the counter by their number, and gives
    each seed one active root line of one step, starting on the canvas, at
    the seed's angle in [0, 2 PI). *)
Theorem generate_roots cfg st st' :
  (0 < PI)%Q -> (0 < canvas_width)%Q -> (0 < canvas_height)%Q ->
  generate sin cos PI canvas_width canvas_height cfg st = Ok tt st' ->
  exists ss, seeds st' = Some ss /\ (seedCount cfg == inject_Z (Z.of_nat (length ss)))%Q /\
    activeLineCount st' = (activeLineCount st + Z.of_nat (length ss))%Z /\
    forall sd, In sd ss -> exists l, lines sd = [l] /\
      (0 <= x (p0 l) < canvas_width)%Q /\ (0 <= y (p0 l) < canvas_height)%Q /\
      angle l = seed_angle sd /\ (0 <= angle l < PI * 2)%Q /\
      active l = true /\ parent l = None /\ generation l = O /\ steps l = 1.
Proof.
  intros HP Hw Hh H.
  destruct (generate_roots_gen cfg st st' H) as (ss & Hs & Hn & Hc & Heach).
  exists ss; split; [exact Hs|split; [exact Hn|split; [exact Hc|]]].
  intros sd Hsd; destruct (Heach sd Hsd) as (st0 & st1 & B).
  exact (buildSeed_place cfg st0 sd st1 HP Hw Hh B).
Qed.

Lemma buildRandomConfig_seedCount st cfg st' :
  buildRandomConfig st = Ok cfg st' ->
  exists n, (1 <= n <= 10)%Z /\ seedCount cfg = inject_Z n.
Proof.
  unfold buildRandomConfig; intros H.
  apply bind_inv in H as (r & st1 & H1 & H).
  apply bind_inv in H as (sc & st2 & H2 & H); apply rnd_between in H2; [|reflexivity|discriminate].
  do 10 (apply bind_inv in H as (? & ? & _ & H)).
  injection H as <- _; exists (Math_round sc); split; [apply Math_round_range; exact H2|reflexivity].
Qed.

Lemma buildRandomConfig_state st cfg st' :
  buildRandomConfig st = Ok cfg st' ->
  seeds st' = seeds st /\ activeLineCount st' = activeLineCount st.
Proof.
  unfold buildRandomConfig; intros H.
  repeat (let Hr := fresh "Hr" in apply bind_inv in H as (? & ? & Hr & H);
          first [apply rnd_shape in Hr | destruct (Qlt_bool _ _); apply rnd_shape in Hr]).
  all: unfold ret in H; injection H as _ <-;
       repeat match goal with Hx : _ /\ _ |- _ => destruct Hx end; split; congruence.
Qed.

Lemma buildRandomConfig_total st : exists cfg st', buildRandomConfig st = Ok cfg st'.
Proof.
  unfold buildRandomConfig.
  destruct (rnd_total 1 0 st) as (r & st1 & H1); rewrite (bind_ok _ _ _ _ _ H1).
  repeat match goal with
  | |- exists _ _, bind (rnd ?a ?b) _ ?s = _ =>
      let H := fresh in destruct (rnd_total a b s) as (? & ? & H); rewrite (bind_ok _ _ _ _ _ H)
  | |- exists _ _, bind (rnd0) _ ?s = _ =>
      let H := fresh in destruct (rnd_total 1 0 s) as (? & ? & H); rewrite (bind_ok _ _ _ _ _ H)
  | |- exists _ _, bind (rnd1 ?a) _ ?s = _ =>
      let H := fresh in destruct (rnd_total a 0 s) as (? & ? & H); rewrite (bind_ok _ _ _ _ _ H)
  | |- exists _ _, bind (if ?c then _ else _) _ _ = _ => destruct c
  end; eauto.
Qed.

(** X12: [render.init()] never throws: from any seed it makes 1 to 10
    seeds, each with a single active root line, and sets the counter to
    their number. *)
Theorem render_init_ok seed0 :
  exists cfg st,
    render_init sin cos PI canvas_width canvas_height (initial_state seed0) = Ok cfg st /\
    exists ss, seeds st = Some ss /\ (1 <= length ss <= 10)%nat /\
      (seedCount cfg == inject_Z (Z.of_nat (length ss)))%Q /\
      activeLineCount st = Z.of_nat (length ss) /\
      forall sd, In sd ss -> exists l, lines sd = [l] /\
        active l = true /\ parent l = None /\ generation l = O /\ steps l = 1.
Proof.
  destruct (buildRandomConfig_total (initial_state seed0)) as (cfg & st1 & H1).
  destruct (buildRandomConfig_seedCount _ _ _ H1) as (n & Hn & Hsc).
  assert (Hg : exists st2, generate sin cos PI canvas_width canvas_height cfg st1 = Ok tt st2).
  { unfold generate; rewrite Hsc, (Array_length_small n Hn).
    destruct (repeatM_total _ (buildSeed_total cfg) (Z.to_nat n) st1) as (ss & st2 & H2).
    rewrite (bind_ok _ _ _ _ _ H2); eexists; reflexivity. }
  destruct Hg as (st2 & H2).
  exists cfg, st2; split.
  { unfold render_init; rewrite (bind_ok _ _ _ _ _ H1), (bind_ok _ _ _ _ _ H2); reflexivity. }
  destruct (generate_roots_gen cfg st1 st2 H2) as (ss & Hs & Hlen & Hc & Heach).
  exists ss; split; [exact Hs|split; [|split; [exact Hlen|split]]].
  - rewrite Hsc in Hlen; apply (proj1 (inject_Z_injective _ _)) in Hlen; lia.
  - rewrite Hc, (proj2 (buildRandomConfig_state _ _ _ H1)); reflexivity.
  - intros sd Hsd; destruct (Heach sd Hsd) as (st0 & st3 & B).
    destruct (buildSeed_root sin cos _ _ _ _ _ _ _ B)
      as (a & px & py & l & Hls & _ & _ & _ & _ & Hpar & Hg & Hact & Hst & _).
    exists l; auto.
Qed.

End GenerateRoots.

(** ** [update()] *)

Lemma some_st_collect {A B} (f : A -> B) acc (rs : list A) :
  fst (some_st (fun acc r => (acc ++ [f r], false)) acc rs) = acc ++ map f rs.
Proof.
  revert acc; induction rs as [|r rs IH]; intros acc; simpl.
  - rewrite app_nil_r; reflexivity.
  - rewrite IH, <- app_assoc; reflexivity.
Qed.

Section UpdateProofs.

Variables (sin cos : Q -> Q) (PI : Q).
Variable isVisible : Q -> Q -> bool.

Lemma update_unfold cfg st :
  update sin cos PI isVisible cfg st =
  match model_grow sin cos PI isVisible cfg st with
  | Err e => Err e
  | Ok _ st1 =>
      if isActive st1 then
        Ok (false, Clear :: map (fun r => rect_call r cfg) (forest_refs (seeds st1)) ++
                   map (fun r => line_call r cfg) (forest_refs (seeds st1))) st1
      else Ok (true, []) st1
  end.
Proof.
  unfold update, bind, get.
  destruct (model_grow sin cos PI isVisible cfg st) as [u st1|e]; [|reflexivity].
  destruct (isActive st1); [|reflexivity].
  unfold ret; rewrite !forEachLineUntilTrue_flat; cbn [fst].
  rewrite (some_st_collect (fun r => rect_call r cfg)).
  rewrite (some_st_collect (fun r => line_call r cfg)).
  reflexivity.
Qed.

(** X13: [update()] grows the model once; if the model is then inactive
    it returns true and draws nothing, otherwise it clears the canvas,
    draws one rectangle for every line (active or not) in traversal order,
    then one stroke for every line, and returns false. *)
Theorem update_draws_all cfg st :
  update sin cos PI isVisible cfg st =
  match model_grow sin cos PI isVisible cfg st with
  | Err e => Err e
  | Ok _ st1 =>
      if isActive st1 then
        Ok (false, Clear :: map (fun r => rect_call r cfg) (forest_refs (seeds st1)) ++
                   map (fun r => line_call r cfg) (forest_refs (seeds st1))) st1
      else Ok (true, []) st1
  end.
Proof. exact (update_unfold cfg st). Qed.

Lemma update_calls cfg st b calls st' c :
  update sin cos PI isVisible cfg st = Ok (b, calls) st' -> In c calls ->
  c = Clear \/ exists r, In r (forest_refs (seeds st')) /\
    (c = rect_call r cfg \/ c = line_call r cfg).
Proof.
  rewrite update_unfold.
  destruct (model_grow sin cos PI isVisible cfg st) as [u st1|e]; [|discriminate].
  destruct (isActive st1); intros H; injection H as <- <- <-; intros Hin.
  - destruct Hin as [<-|Hin]; [left; reflexivity|right].
    apply in_app_or in Hin as [Hin|Hin]; apply in_map_iff in Hin as (r & <- & Hr);
      exists r; split; auto.
  - destruct Hin.
Qed.

End UpdateProofs.

Lemma js_rem_range a b : (0 < b)%Q ->
  (exists k : Z, js_rem a b == a - b * inject_Z k)%Q /\
  (- b < js_rem a b < b)%Q /\ ((0 <= a)%Q -> (0 <= js_rem a b)%Q) /\
  ((a < 0)%Q -> (js_rem a b <= 0)%Q).
Proof.
  intros Hb; unfold js_rem; cbv zeta.
  assert (Ha : (a == b * (a / b))%Q) by (symmetry; apply Qmult_div_r; lra).
  set (q := (a / b)%Q) in *.
  destruct (Qle_bool 0 q) eqn:E.
  - apply Qle_bool_iff in E.
    pose proof (Qfloor_le q) as H1; pose proof (Qlt_floor q) as H2.
    rewrite inject_Z_plus in H2; change (inject_Z 1) with 1%Q in H2.
    set (f := inject_Z (Qfloor q)) in *.
    split; [eexists; reflexivity|].
    setoid_replace (a - b * f)%Q with (b * (q - f))%Q by (rewrite Ha; ring).
    assert (L : (0 <= b * (q - f))%Q) by (apply Qmult_le_0_compat; lra).
    assert (U : (b * (q - f) < b * 1)%Q) by (apply Qmult_lt_l; lra).
    assert (P : (0 <= b * q)%Q) by (apply Qmult_le_0_compat; lra).
    split; [split; lra|]; split; intros; lra.
  - assert (E' : (q < 0)%Q).
    { apply Qnot_le_lt; intros H; apply Qle_bool_iff in H; congruence. }
    pose proof (Qle_ceiling q) as H1; pose proof (Qceiling_lt q) as H2.
    unfold Z.sub in H2; rewrite inject_Z_plus, inject_Z_opp in H2; change (inject_Z 1) with 1%Q in H2.
    set (c := inject_Z (Qceiling q)) in *.
    split; [eexists; reflexivity|].
    setoid_replace (a - b * c)%Q with (b * (q - c))%Q by (rewrite Ha; ring).
    assert (L : (b * (q - c) <= b * 0)%Q) by (apply Qmult_le_l; lra).
    assert (U : (b * (-1) < b * (q - c))%Q) by (apply Qmult_lt_l; lra).
    assert (P : (b * q < b * 0)%Q) by (apply Qmult_lt_l; lra).
    split; [split; lra|]; split; intros; lra.
Qed.

Lemma Math_min_le a b : (Math_min a b <= a)%Q /\ (Math_min a b <= b)%Q.
Proof.
  unfold Math_min; destruct (Qlt_bool b a) eqn:E.
  - apply Qlt_bool_iff in E; lra.
  - split; [lra|]. apply Qnot_lt_le; intros H; apply Qlt_bool_iff in H; congruence.
Qed.

Lemma Math_round_percent q : (0 <= q < 1)%Q -> (0 <= Math_round (q * 100) <= 100)%Z.
Proof.
  intros [H1 H2]; unfold Math_round.
  pose proof (Qfloor_le (q * 100 + (1#2))) as Hle.
  pose proof (Qlt_floor (q * 100 + (1#2))) as Hlt.
  set (n := Qfloor (q * 100 + (1#2))) in *.
  rewrite inject_Z_plus in Hlt.
  split.
  - destruct (Z.le_gt_cases 0 n) as [Hn|Hn]; [exact Hn|exfalso].
    assert (Hn' : (inject_Z (n + 1) <= inject_Z 0)%Q) by (rewrite <- Zle_Qle; lia).
    rewrite inject_Z_plus in Hn'.
    change (inject_Z 1) with 1%Q in *; change (inject_Z 0) with 0%Q in *; lra.
  - destruct (Z.le_gt_cases n 100) as [Hn|Hn]; [exact Hn|exfalso].
    assert (Hn' : (inject_Z 101 <= inject_Z n)%Q) by (rewrite <- Zle_Qle; lia).
    change (inject_Z 101) with 101%Q in Hn'; change (inject_Z 1) with 1%Q in Hlt; lra.
Qed.

Section UpdateCalls.

Variables (sin cos : Q -> Q) (PI : Q).
Variable isVisible : Q -> Q -> bool.

(** X14: every rectangle [update()] draws belongs to a line of the model,
    is at most [maxRectWidth] and at most the line's steps wide, and has a
    hue strictly between -360 and 360, congruent modulo 360 to the base
    hue plus the line's variation, and negative only when that sum is. *)
Theorem update_rect_ranges cfg st b calls st' l w h s lt a g :
  update sin cos PI isVisible cfg st = Ok (b, calls) st' ->
  In (DrawRect l w h s lt a g) calls ->
  let pre := (rectBaseHue cfg + (line_rnd l - (1#2)) * rectHueVariation cfg)%Q in
  (exists si li, In (si, li, l) (forest_refs (seeds st'))) /\
  (w <= maxRectWidth cfg /\ w <= inject_Z (Z.of_nat (steps l)))%Q /\
  (-360 < h < 360)%Q /\ (exists k : Z, h == pre - 360 * inject_Z k)%Q /\
  ((0 <= pre)%Q -> (0 <= h)%Q) /\ ((pre < 0)%Q -> (h <= 0)%Q) /\
  s = rectSaturation cfg /\ lt = rectLightness cfg /\ a = rectAlpha cfg /\
  g = useGradients cfg.
Proof.
  intros Hu Hin pre.
  destruct (update_calls sin cos PI isVisible cfg st b calls st' _ Hu Hin)
    as [E|(r & Hr & [E|E])]; try discriminate.
  destruct r as [[si li] l0]; unfold rect_call in E; cbn [snd] in E.
  injection E as El Ew Eh Es Elt Ea Eg; subst l0 w h s lt a g.
  pose proof (js_rem_range pre 360 ltac:(reflexivity)) as (Hk & Hb & Hp & Hn).
  pose proof (Math_min_le (maxRectWidth cfg) (inject_Z (Z.of_nat (steps l)))) as Hm.
  unfold rect_hue; fold pre.
  split; [exists si, li; exact Hr|].
  split; [exact Hm|]. split; [exact Hb|]. split; [exact Hk|].
  split; [exact Hp|]. split; [exact Hn|]. repeat split.
Qed.

(** X15: every stroke [update()] draws belongs to a line of the model and
    has the grey value [Math.round(lineDarkness * 100)], in 0..100 when
    [lineDarkness] is in [0, 1). *)
Theorem update_line_gray cfg st b calls st' l v :
  (0 <= lineDarkness cfg < 1)%Q ->
  update sin cos PI isVisible cfg st = Ok (b, calls) st' ->
  In (DrawLine l v) calls ->
  (exists si li, In (si, li, l) (forest_refs (seeds st'))) /\
  v = Math_round (lineDarkness cfg * 100) /\ (0 <= v <= 100)%Z.
Proof.
  intros Hd Hu Hin.
  destruct (update_calls sin cos PI isVisible cfg st b calls st' _ Hu Hin)
    as [E|(r & Hr & [E|E])]; try discriminate.
  destruct r as [[si li] l0]; unfold line_call in E; cbn [snd] in E.
  injection E as El Ev; subst l0 v.
  split; [exists si, li; exact Hr|]. split; [reflexivity|].
  apply Math_round_percent; exact Hd.
Qed.

End UpdateCalls.

(** ** The animation loop *)

Definition one_chain (lp : loop) : Prop := (frames lp + finished lp <= 1)%nat.

Section LoopProofs.

Variables (sin cos : Q -> Q) (PI : Q).
Variable isVisible : Q -> Q -> bool.

Lemma doUpdate_loop cfg lp st lp' c st' :
  doUpdate sin cos PI isVisible cfg lp st = Ok (lp', c) st' ->
  stopRequested lp' = false /\
  (if stopRequested lp then frames lp' = frames lp /\ finished lp' = finished lp
   else frames lp' + finished lp' = S (frames lp + finished lp)).
Proof.
  unfold doUpdate, bind.
  destruct (update sin cos PI isVisible cfg st) as [[b calls] st1|e]; [|discriminate].
  destruct (stopRequested lp); [|destruct b]; unfold ret; intros H;
    injection H as <- _ _; cbn; auto; lia.
Qed.

Lemma frame_one_chain cfg lp st lp' c st' :
  one_chain lp -> frame sin cos PI isVisible cfg lp st = Ok (lp', c) st' -> one_chain lp'.
Proof.
  unfold frame, one_chain; intros Hc.
  destruct (frames lp) as [|n] eqn:Ef.
  - unfold ret; intros H; injection H as <- _ _; rewrite Ef; exact Hc.
  - intros H; apply doUpdate_loop in H as [_ H]; cbn in H.
    destruct (stopRequested lp); lia.
Qed.

Lemma pause_resume_one_chain cfg lp st lp' c st' :
  one_chain lp -> start sin cos PI isVisible cfg (stop lp) st = Ok (lp', c) st' ->
  one_chain lp' /\ stopRequested lp' = false.
Proof.
  unfold start, one_chain; intros Hc H; apply doUpdate_loop in H as [Hs H]; cbn in H.
  split; [lia|exact Hs].
Qed.

Lemma host_run_one_chain cfg evs : resume_after_pause evs = true ->
  forall lp st lp' c st', one_chain lp ->
  host_run sin cos PI isVisible cfg evs lp st = Ok (lp', c) st' -> one_chain lp'.
Proof.
  induction evs as [evs IH] using (induction_ltof1 _ (@length host_event)).
  destruct evs as [|[] evs]; intros Hok lp st lp' c st' Hc H.
  - injection H as <- _ _; exact Hc.
  - cbn [host_run] in H; apply bind_inv in H as ([lp1 c1] & st1 & H1 & H).
    apply bind_inv in H as ([lp2 c2] & st2 & H2 & H); injection H as <- _ _.
    eapply (IH evs); [unfold ltof; cbn; lia|exact Hok| |exact H2].
    eapply frame_one_chain; eassumption.
  - destruct evs as [|[] evs'].
    + injection H as <- _ _; unfold one_chain, stop in *; cbn; exact Hc.
    + cbn [host_run] in H.
      eapply (IH (HFrame :: evs')); [unfold ltof; cbn; lia|exact Hok| |exact H].
      unfold one_chain, stop in *; cbn; exact Hc.
    + cbn [host_run] in H.
      eapply (IH (HPause :: evs')); [unfold ltof; cbn; lia|exact Hok| |exact H].
      unfold one_chain, stop in *; cbn; exact Hc.
    + cbn [host_run] in H; apply bind_inv in H as ([lp1 c1] & st1 & H1 & H).
      apply bind_inv in H as ([lp2 c2] & st2 & H2 & H); injection H as <- _ _.
      eapply (IH evs'); [unfold ltof; cbn; lia|exact Hok| |exact H2].
      exact (proj1 (pause_resume_one_chain cfg lp _ _ _ _ Hc H1)).
  - discriminate.
Qed.

(** X16: after [start()], as long as [resume()] is only called right
    after [pause()], at most one animation-frame callback is pending,
    [onFinished] is called at most once, and none is pending after it. *)
Theorem render_loop_single cfg st evs lp c st1 lp' c' st2 :
  resume_after_pause evs = true ->
  start sin cos PI isVisible cfg (mkLoop false 0 0) st = Ok (lp, c) st1 ->
  host_run sin cos PI isVisible cfg evs lp st1 = Ok (lp', c') st2 ->
  (frames lp' <= 1)%nat /\ (finished lp' <= 1)%nat /\
  (finished lp' = 1%nat -> frames lp' = O).
Proof.
  intros Hok Hs Hr.
  assert (H0 : one_chain lp).
  { unfold start in Hs; apply doUpdate_loop in Hs as [_ Hs]; cbn in Hs.
    unfold one_chain; lia. }
  pose proof (host_run_one_chain cfg evs Hok _ _ _ _ _ H0 Hr) as H.
  unfold one_chain in H; lia.
Qed.

End LoopProofs.

(** ** [startNew] *)

(** X17: the default seed of [startNew] is the low 20 bits of
    [Date.now()], a number in [0, 2^20). *)
Theorem default_seed_low_bits now :
  default_seed now = (now mod 2 ^ 20)%Z /\ (0 <= default_seed now < 2 ^ 20)%Z.
Proof.
  assert (E : default_seed now = (now mod 2 ^ 20)%Z).
  { unfold default_seed, js_and.
    change (ToInt32 1048575) with (Z.ones 20).
    rewrite Z.land_ones by lia.
    assert (Hm : (ToInt32 now mod 2 ^ 20 = now mod 2 ^ 20)%Z).
    { unfold ToInt32, two32; cbv zeta.
      pose proof (Z.div_mod now 4294967296 ltac:(lia)) as Hd.
      set (m := (now mod 4294967296)%Z) in *; set (d := (now / 4294967296)%Z) in *.
      assert (En : (now mod 2 ^ 20 = m mod 2 ^ 20)%Z).
      { rewrite Hd, Z.add_comm.
        replace (4294967296 * d)%Z with ((4096 * d) * 2 ^ 20)%Z by lia.
        apply Z.mod_add; lia. }
      rewrite En; destruct (2147483648 <=? m)%Z; [|reflexivity].
      replace (m - 4294967296)%Z with (m + (-4096) * 2 ^ 20)%Z by lia.
      apply Z.mod_add; lia. }
    rewrite Hm.
    pose proof (Z.mod_pos_bound now (2 ^ 20) ltac:(lia)) as Hb.
    unfold ToInt32, two32; cbv zeta.
    rewrite Z.mod_small by lia.
    destruct (Z.leb_spec 2147483648 (now mod 2 ^ 20)); lia. }
  split; [exact E|rewrite E; apply Z.mod_pos_bound; lia].
Qed.

(** ** Witnesses of the extra properties *)

Ltac run_ok H e :=
  let v := eval vm_compute in e in
  match v with Ok ?a ?s => assert (H : e = Ok a s) by (vm_compute; reflexivity) end.

Ltac run_some H e :=
  let v := eval vm_compute in e in
  match v with Some ?a => assert (H : e = Some a) by (vm_compute; reflexivity) end.

(** The sample run used below: [generate()] with [split_config] from seed 1,
    then one [grow()]; seed 0 then has its root (line 0) and a child
    (line 1). *)
Ltac sample_run R1 R2 H1 H2 :=
  run_ok H1 (generate SampleEnv.sin SampleEnv.cos SampleEnv.PI SampleEnv.canvas_width
               SampleEnv.canvas_height split_config (initial_state 1));
  match type of H1 with _ = Ok _ ?s1 =>
    run_ok H2 (model_grow SampleEnv.sin SampleEnv.cos SampleEnv.PI SampleEnv.isVisible
                 split_config s1);
    match type of H2 with _ = Ok _ ?s2 =>
      pose proof (reach_generate SampleEnv.sin SampleEnv.cos SampleEnv.PI SampleEnv.canvas_width SampleEnv.canvas_height SampleEnv.isVisible split_config (initial_state 1) s1
                    (reach_fresh SampleEnv.sin SampleEnv.cos SampleEnv.PI SampleEnv.canvas_width SampleEnv.canvas_height SampleEnv.isVisible split_config (initial_state 1) eq_refl eq_refl)
                    eq_refl H1) as R1;
      pose proof (reach_grow SampleEnv.sin SampleEnv.cos SampleEnv.PI SampleEnv.canvas_width SampleEnv.canvas_height SampleEnv.isVisible split_config s1 s2 R1 H2) as R2
    end
  end.

(** The lines of seed 0 after that run: [Hl] the child, [Hlp] the root. *)
Ltac sample_facts R1 R2 H1 H2 Hs Hsd Hl Hlp Hpar :=
  sample_run R1 R2 H1 H2;
  match type of H2 with _ = Ok _ ?s2 =>
    run_some Hs (seeds s2);
    match type of Hs with _ = Some ?ss =>
      run_some Hsd (nth_error ss 0);
      match type of Hsd with _ = Some ?sd =>
        run_some Hl (nth_error (lines sd) 1);
        run_some Hlp (nth_error (lines sd) 0);
        match type of Hl with _ = Some ?l =>
          assert (Hpar : parent l = Some 0%nat) by reflexivity
        end
      end
    end
  end.

(** X1: the child line of the sample run. *)
Lemma reachable_line_tip_witness :
  exists st ss sd l,
    reachable SampleEnv.sin SampleEnv.cos SampleEnv.PI SampleEnv.canvas_width SampleEnv.canvas_height SampleEnv.isVisible split_config st /\ seeds st = Some ss /\ nth_error ss 0 = Some sd /\
    nth_error (lines sd) 1 = Some l /\
    ((1 <= steps l)%nat /\
     (tip_at SampleEnv.sin SampleEnv.cos l (steps l) \/
      (active l = false /\ tip_at SampleEnv.sin SampleEnv.cos l (steps l - 1)))).
Proof.
  sample_facts R1 R2 H1 H2 Hs Hsd Hl Hlp Hpar.
  do 4 eexists; refine (conj R2 (conj Hs (conj Hsd (conj Hl _)))).
  exact (reachable_line_tip SampleEnv.sin SampleEnv.cos SampleEnv.PI SampleEnv.canvas_width SampleEnv.canvas_height SampleEnv.isVisible _ _ _ _ _ _ _ R2 Hs Hsd Hl).
Defined.

(** X2: the child line of the sample run. *)
Lemma reachable_parent_link_witness :
  exists st ss sd l,
    reachable SampleEnv.sin SampleEnv.cos SampleEnv.PI SampleEnv.canvas_width SampleEnv.canvas_height SampleEnv.isVisible split_config st /\ seeds st = Some ss /\ nth_error ss 0 = Some sd /\
    nth_error (lines sd) 1 = Some l /\
    match parent l with
    | None => 1%nat = O /\ generation l = O
    | Some p => (p < 1)%nat /\ exists lp, nth_error (lines sd) p = Some lp /\
                  generation l = S (generation lp)
    end.
Proof.
  sample_facts R1 R2 H1 H2 Hs Hsd Hl Hlp Hpar.
  do 4 eexists; refine (conj R2 (conj Hs (conj Hsd (conj Hl _)))).
  exact (reachable_parent_link SampleEnv.sin SampleEnv.cos SampleEnv.PI SampleEnv.canvas_width SampleEnv.canvas_height SampleEnv.isVisible _ _ _ _ _ _ _ R2 Hs Hsd Hl).
Defined.

(** X3: the child line of the sample run and its parent, the root. *)
Lemma reachable_child_geometry_witness :
  exists st ss sd l lp,
    reachable SampleEnv.sin SampleEnv.cos SampleEnv.PI SampleEnv.canvas_width SampleEnv.canvas_height SampleEnv.isVisible split_config st /\ seeds st = Some ss /\ nth_error ss 0 = Some sd /\
    nth_error (lines sd) 1 = Some l /\ parent l = Some 0%nat /\
    nth_error (lines sd) 0 = Some lp /\
    (on_parent SampleEnv.sin SampleEnv.cos lp l /\
     (angle l == angle lp + SampleEnv.PI / 2 \/ angle l == angle lp - SampleEnv.PI / 2)%Q).
Proof.
  sample_facts R1 R2 H1 H2 Hs Hsd Hl Hlp Hpar.
  do 5 eexists; refine (conj R2 (conj Hs (conj Hsd (conj Hl (conj Hpar (conj Hlp _)))))).
  exact (reachable_child_geometry SampleEnv.sin SampleEnv.cos SampleEnv.PI SampleEnv.canvas_width SampleEnv.canvas_height SampleEnv.isVisible _ _ _ _ _ _ _ _ _ R2 Hs Hsd Hl Hpar Hlp).
Defined.

(** X4: the root line of the sample run. *)
Lemma reachable_root_witness :
  exists st ss sd l,
    reachable SampleEnv.sin SampleEnv.cos SampleEnv.PI SampleEnv.canvas_width SampleEnv.canvas_height SampleEnv.isVisible split_config st /\ seeds st = Some ss /\ nth_error ss 0 = Some sd /\
    nth_error (lines sd) 0 = Some l /\
    ((0%nat = O <-> generation l = O) /\
     (generation l = O -> parent l = None /\ expired l = false)).
Proof.
  sample_facts R1 R2 H1 H2 Hs Hsd Hl Hlp Hpar.
  do 4 eexists; refine (conj R2 (conj Hs (conj Hsd (conj Hlp _)))).
  exact (reachable_root SampleEnv.sin SampleEnv.cos SampleEnv.PI SampleEnv.canvas_width SampleEnv.canvas_height SampleEnv.isVisible _ _ _ _ _ _ _ R2 Hs Hsd Hlp).
Defined.

(** X6: the tick of the sample run. *)
Lemma reachable_grow_bound_witness :
  exists st ss st',
    reachable SampleEnv.sin SampleEnv.cos SampleEnv.PI SampleEnv.canvas_width SampleEnv.canvas_height SampleEnv.isVisible split_config st /\ seeds st = Some ss /\
    model_grow SampleEnv.sin SampleEnv.cos SampleEnv.PI SampleEnv.isVisible split_config st =
      Ok tt st' /\
    exists ss', seeds st' = Some ss' /\ length ss' = length ss /\
      forall si sd, nth_error ss si = Some sd -> exists sd', nth_error ss' si = Some sd' /\
        (length (lines sd') <= length (lines sd) + count_active (lines sd))%nat /\
        (length (lines sd') <= 2 * length (lines sd))%nat.
Proof.
  sample_run R1 R2 H1 H2.
  match type of H1 with _ = Ok _ ?s1 => run_some Hs1 (seeds s1) end.
  do 3 eexists; refine (conj R1 (conj Hs1 (conj H2 _))).
  exact (reachable_grow_bound SampleEnv.sin SampleEnv.cos SampleEnv.PI SampleEnv.canvas_width SampleEnv.canvas_height SampleEnv.isVisible _ _ _ _ R1 Hs1 H2).
Defined.

(** X9: two segments that meet at an end point. *)
Lemma linesIntersect_shared_endpoint_witness :
  (p0 (segment 1 1 2 0) = p0 (segment 0 0 1 1) \/ p0 (segment 1 1 2 0) = p1 (segment 0 0 1 1) \/
   p1 (segment 1 1 2 0) = p0 (segment 0 0 1 1) \/ p1 (segment 1 1 2 0) = p1 (segment 0 0 1 1)) /\
  linesIntersect (segment 0 0 1 1) (segment 1 1 2 0) = true.
Proof.
  assert (H : p0 (segment 1 1 2 0) = p0 (segment 0 0 1 1) \/
              p0 (segment 1 1 2 0) = p1 (segment 0 0 1 1) \/
              p1 (segment 1 1 2 0) = p0 (segment 0 0 1 1) \/
              p1 (segment 1 1 2 0) = p1 (segment 0 0 1 1))
    by (right; left; reflexivity).
  exact (conj H (linesIntersect_shared_endpoint _ _ H)).
Defined.

(** X10: the configuration drawn from seed 1. *)
Lemma buildRandomConfig_ranges_witness :
  exists cfg st', buildRandomConfig (initial_state 1) = Ok cfg st' /\
  (exists n, (1 <= n <= 10)%Z /\ seedCount cfg = inject_Z n) /\
  (2#100 <= pBifurcation cfg < 5#100)%Q /\
  (0 <= maxRectWidth cfg < 100)%Q /\
  (0 <= rectBaseHue cfg < 360)%Q /\
  (20 <= rectSaturation cfg < 100)%Q /\
  (0 <= rectHueVariation cfg < 100)%Q /\
  (if useGradients cfg then (4#10 <= rectAlpha cfg < 8#10)%Q
   else (1#10 <= rectAlpha cfg < 4#10)%Q) /\
  (20 <= rectLightness cfg < 70)%Q /\
  (0 <= expiryThreshold cfg < 1#1000)%Q /\
  (0 <= lineDarkness cfg < 1)%Q.
Proof.
  run_ok Hc (buildRandomConfig (initial_state 1)).
  do 2 eexists; refine (conj Hc _).
  exact (buildRandomConfig_ranges _ _ _ Hc).
Defined.

(** X11: [generate()] with [split_config] from seed 1. *)
Lemma generate_roots_witness :
  (0 < SampleEnv.PI)%Q /\ (0 < SampleEnv.canvas_width)%Q /\ (0 < SampleEnv.canvas_height)%Q /\
  exists st', generate SampleEnv.sin SampleEnv.cos SampleEnv.PI SampleEnv.canvas_width
                SampleEnv.canvas_height split_config (initial_state 1) = Ok tt st' /\
  exists ss, seeds st' = Some ss /\
    (seedCount split_config == inject_Z (Z.of_nat (length ss)))%Q /\
    activeLineCount st' = (activeLineCount (initial_state 1) + Z.of_nat (length ss))%Z /\
    forall sd, In sd ss -> exists l, lines sd = [l] /\
      (0 <= x (p0 l) < SampleEnv.canvas_width)%Q /\ (0 <= y (p0 l) < SampleEnv.canvas_height)%Q /\
      angle l = seed_angle sd /\ (0 <= angle l < SampleEnv.PI * 2)%Q /\
      active l = true /\ parent l = None /\ generation l = O /\ steps l = 1%nat.
Proof.
  assert (HP : (0 < SampleEnv.PI)%Q) by (vm_compute; reflexivity).
  assert (Hw : (0 < SampleEnv.canvas_width)%Q) by (vm_compute; reflexivity).
  assert (Hh : (0 < SampleEnv.canvas_height)%Q) by (vm_compute; reflexivity).
  run_ok H1 (generate SampleEnv.sin SampleEnv.cos SampleEnv.PI SampleEnv.canvas_width
               SampleEnv.canvas_height split_config (initial_state 1)).
  refine (conj HP (conj Hw (conj Hh _))); eexists; refine (conj H1 _).
  exact (generate_roots SampleEnv.sin SampleEnv.cos SampleEnv.PI SampleEnv.canvas_width
           SampleEnv.canvas_height _ _ _ HP Hw Hh H1).
Defined.

(** The state after [generate()] in the sample run, and one [update()]. *)
Ltac sample_update H1 Hu :=
  run_ok H1 (generate SampleEnv.sin SampleEnv.cos SampleEnv.PI SampleEnv.canvas_width
               SampleEnv.canvas_height split_config (initial_state 1));
  match type of H1 with _ = Ok _ ?s1 =>
    run_ok Hu (update SampleEnv.sin SampleEnv.cos SampleEnv.PI SampleEnv.isVisible
                 split_config s1)
  end.

Ltac find_in := repeat (first [left; reflexivity | right]).

(** X14: the first rectangle of the first [update()] of the sample run. *)
Lemma update_rect_ranges_witness :
  exists st b calls st' l w h s lt a g,
    update SampleEnv.sin SampleEnv.cos SampleEnv.PI SampleEnv.isVisible split_config st =
      Ok (b, calls) st' /\
    In (DrawRect l w h s lt a g) calls /\
    let pre := (rectBaseHue split_config + (line_rnd l - (1#2)) *
                rectHueVariation split_config)%Q in
    (exists si li, In (si, li, l) (forest_refs (seeds st'))) /\
    (w <= maxRectWidth split_config /\ w <= inject_Z (Z.of_nat (steps l)))%Q /\
    (-360 < h < 360)%Q /\ (exists k : Z, h == pre - 360 * inject_Z k)%Q /\
    ((0 <= pre)%Q -> (0 <= h)%Q) /\ ((pre < 0)%Q -> (h <= 0)%Q) /\
    s = rectSaturation split_config /\ lt = rectLightness split_config /\
    a = rectAlpha split_config /\ g = useGradients split_config.
Proof.
  sample_update H1 Hu.
  match type of Hu with _ = Ok (_, ?calls) _ =>
    match calls with context [DrawRect ?l ?w ?h ?s ?lt ?a ?g] =>
      assert (Hin : In (DrawRect l w h s lt a g) calls) by find_in
    end
  end.
  do 11 eexists; refine (conj Hu (conj Hin _)).
  exact (update_rect_ranges SampleEnv.sin SampleEnv.cos SampleEnv.PI SampleEnv.isVisible
           _ _ _ _ _ _ _ _ _ _ _ _ Hu Hin).
Defined.

(** X15: the first line drawn by the first [update()] of the sample run. *)
Lemma update_line_gray_witness :
  (0 <= lineDarkness split_config < 1)%Q /\
  exists st b calls st' l v,
    update SampleEnv.sin SampleEnv.cos SampleEnv.PI SampleEnv.isVisible split_config st =
      Ok (b, calls) st' /\
    In (DrawLine l v) calls /\
    (exists si li, In (si, li, l) (forest_refs (seeds st'))) /\
    v = Math_round (lineDarkness split_config * 100) /\ (0 <= v <= 100)%Z.
Proof.
  assert (Hd : (0 <= lineDarkness split_config < 1)%Q)
    by (cbn [lineDarkness split_config]; lra).
  sample_update H1 Hu.
  match type of Hu with _ = Ok (_, ?calls) _ =>
    match calls with context [DrawLine ?l ?v] =>
      assert (Hin : In (DrawLine l v) calls) by find_in
    end
  end.
  refine (conj Hd _); do 6 eexists; refine (conj Hu (conj Hin _)).
  exact (update_line_gray SampleEnv.sin SampleEnv.cos SampleEnv.PI SampleEnv.isVisible
           _ _ _ _ _ _ _ Hd Hu Hin).
Defined.

(** X16: [start()] after [generate()] in the sample run, then a frame,
    [pause()], [resume()] and a frame. *)
Lemma render_loop_single_witness :
  exists st lp c st1 lp' c' st2,
    resume_after_pause [HFrame; HPause; HResume; HFrame] = true /\
    start SampleEnv.sin SampleEnv.cos SampleEnv.PI SampleEnv.isVisible split_config
      (mkLoop false 0 0) st = Ok (lp, c) st1 /\
    host_run SampleEnv.sin SampleEnv.cos SampleEnv.PI SampleEnv.isVisible split_config
      [HFrame; HPause; HResume; HFrame] lp st1 = Ok (lp', c') st2 /\
    ((frames lp' <= 1)%nat /\ (finished lp' <= 1)%nat /\
     (finished lp' = 1%nat -> frames lp' = O)).
Proof.
  assert (Hok : resume_after_pause [HFrame; HPause; HResume; HFrame] = true) by reflexivity.
  run_ok H1 (generate SampleEnv.sin SampleEnv.cos SampleEnv.PI SampleEnv.canvas_width
               SampleEnv.canvas_height split_config (initial_state 1)).
  match type of H1 with _ = Ok _ ?s1 =>
    run_ok Hs (start SampleEnv.sin SampleEnv.cos SampleEnv.PI SampleEnv.isVisible split_config
                 (mkLoop false 0 0) s1)
  end.
  match type of Hs with _ = Ok (?lp, _) ?st1 =>
    run_ok Hr (host_run SampleEnv.sin SampleEnv.cos SampleEnv.PI SampleEnv.isVisible
                 split_config [HFrame; HPause; HResume; HFrame] lp st1)
  end.
  match type of Hr with _ = Ok (_, _) _ => idtac end.
  do 7 eexists; refine (conj Hok (conj Hs (conj Hr _))).
  exact (render_loop_single SampleEnv.sin SampleEnv.cos SampleEnv.PI SampleEnv.isVisible
           _ _ _ _ _ _ _ _ _ Hok Hs Hr).
Defined.
